(** * Response-parsing core of app.py: [extract_tables] and [extract_sections]

    A shallow embedding of the two extractors of [src/app/app.py] together
    with the Python primitives they are built from ([str.split],
    [str.strip], [str.join], the backtracking matcher of [re], and the
    row-list constructor of [pandas.DataFrame]).

    Text is modelled as a list of 8-bit characters, that is, Python strings
    whose code points lie below 256.  On that range the character classes
    used by the source are exactly the ones defined below: [str.strip()]
    and [\s] remove/match the code points 9-13, 28-32, 133 and 160, and
    [\d] matches the ten ASCII digits. *)

From Stdlib Require Import List Ascii String Bool Arith Lia.
Import ListNotations.

Set Implicit Arguments.

(** ** Python strings *)

Module Py.

Abbreviation str := (list ascii) (only parsing).

Definition LF : ascii := "010"%char.
Definition CR : ascii := "013"%char.
Definition TAB : ascii := "009"%char.

(** Python string literals: [py "a\nb"] is the text written ['a\nb'] in the
    source, with the escapes [\n], [\r], [\t] and [\\] interpreted. *)
Fixpoint py (s : string) : str :=
  match s with
  | EmptyString => []
  | String c s' =>
      if (c =? "\")%char then
        match s' with
        | String d s'' =>
            if (d =? "n")%char then LF :: py s''
            else if (d =? "r")%char then CR :: py s''
            else if (d =? "t")%char then TAB :: py s''
            else if (d =? "\")%char then "\"%char :: py s''
            else c :: d :: py s''
        | EmptyString => [c]
        end
      else c :: py s'
  end.

(** [str.isspace] on one character. *)
Definition is_space (c : ascii) : bool :=
  let n := nat_of_ascii c in
  ((9 <=? n) && (n <=? 13)) || ((28 <=? n) && (n <=? 32))
  || (n =? 133) || (n =? 160).

(** Membership of a character in a string, as in [c in chars]. *)
Definition mem (c : ascii) (chars : str) : bool :=
  existsb (fun d => (c =? d)%char) chars.

Fixpoint dropwhile (p : ascii -> bool) (s : str) : str :=
  match s with
  | [] => []
  | c :: s' => if p c then dropwhile p s' else s
  end.

Definition lstrip_by (p : ascii -> bool) (s : str) : str := dropwhile p s.
Definition rstrip_by (p : ascii -> bool) (s : str) : str :=
  rev (dropwhile p (rev s)).
Definition strip_by (p : ascii -> bool) (s : str) : str :=
  rstrip_by p (lstrip_by p s).

(** [s.strip()] *)
Definition strip (s : str) : str := strip_by is_space s.

(** [s.strip(chars)] *)
Definition strip_chars (chars : str) (s : str) : str :=
  strip_by (fun c => mem c chars) s.

(** [s.split(sep)] for a one-character separator. *)
Fixpoint split (sep : ascii) (s : str) : list str :=
  match s with
  | [] => [[]]
  | c :: s' =>
      if (c =? sep)%char then [] :: split sep s'
      else match split sep s' with
           | l :: ls => (c :: l) :: ls
           | [] => [[c]]
           end
  end.

(** [sep.join(ls)] *)
Fixpoint join (sep : str) (ls : list str) : str :=
  match ls with
  | [] => []
  | l :: ls' =>
      match ls' with
      | [] => l
      | _ :: _ => l ++ sep ++ join sep ls'
      end
  end.

(** The slice [l[1:-1]]. *)
Definition slice_1_m1 {A : Type} (l : list A) : list A := removelast (tl l).

(** Truthiness of a string and of a list. *)
Definition truthy {A : Type} (l : list A) : bool :=
  match l with [] => false | _ :: _ => true end.

End Py.

Import Py.

(** ** The backtracking matcher of [re]

    A pattern is matched by trying the alternatives in the priority order
    of Python's engine: the left branch of [|] first, one more iteration
    first for a greedy repetition, the continuation first for a lazy one.
    [matches r p] lists, in that order, every position at which an
    occurrence of [r] starting at [p] can end; the engine's answer is the
    first element. *)

Module Re.

Inductive regex : Type :=
| Eps : regex
| Bol : regex                              (* ^ *)
| Cls : (ascii -> bool) -> regex           (* one character of a class *)
| Cat : regex -> regex -> regex
| Alt : regex -> regex -> regex
| Star : bool -> regex -> regex.           (* r* (true) and r*? (false) *)

Definition Chr (c : ascii) : regex := Cls (fun d => (d =? c)%char).
(** [r+] and [r?] *)
Definition Plus (r : regex) : regex := Cat r (Star true r).
Definition Opt (r : regex) : regex := Alt r Eps.

(** Character classes of the two patterns. *)
Definition dot (c : ascii) : bool := negb (c =? LF)%char.          (* .  *)
Definition digit (c : ascii) : bool :=                             (* \d *)
  let n := nat_of_ascii c in (48 <=? n) && (n <=? 57).
Definition newline (c : ascii) : bool :=                           (* [\r\n] *)
  (c =? CR)%char || (c =? LF)%char.
Definition sepchar (c : ascii) : bool :=                           (* [-|:\s] *)
  (c =? "-")%char || (c =? "|")%char || (c =? ":")%char || is_space c.

(** A position in the subject: whether [^] holds there, and the text that
    is left. *)
Abbreviation pos := (bool * list ascii)%type (only parsing).

Section Engine.

Variable multiline : bool.

(** The position after the character [c]. *)
Definition after (c : ascii) (s : str) : pos :=
  (multiline && (c =? LF)%char, s).

(** The loop of a repetition whose body matches as [body] does.  An
    iteration has to consume a character, so [length (snd p)] iterations
    are always enough ([star_loop_fuel] below). *)
Fixpoint star_loop (body : pos -> list pos) (greedy : bool) (fuel : nat)
                   (p : pos) {struct fuel} : list pos :=
  match fuel with
  | 0 => [p]
  | S fuel' =>
      let more :=
        flat_map
          (fun q =>
             if List.length (snd q) <? List.length (snd p)
             then star_loop body greedy fuel' q else [])
          (body p) in
      if greedy then more ++ [p] else p :: more
  end.

Fixpoint matches (r : regex) (p : pos) : list pos :=
  match r with
  | Eps => [p]
  | Bol => if fst p then [p] else []
  | Cls f =>
      match snd p with
      | c :: s => if f c then [after c s] else []
      | [] => []
      end
  | Cat r1 r2 => flat_map (matches r2) (matches r1 p)
  | Alt r1 r2 => matches r1 p ++ matches r2 p
  | Star greedy r1 => star_loop (matches r1) greedy (List.length (snd p)) p
  end.

(** [pattern.match(string)]: the text left after the match. *)
Definition re_match (r : regex) (s : str) : option str :=
  match matches r (true, s) with
  | [] => None
  | q :: _ => Some (snd q)
  end.

(** The matched text, given the subject and what is left of it. *)
Definition matched (s rest : str) : str :=
  firstn (List.length s - List.length rest) s.

(** [re.finditer]: the texts of the non-overlapping matches, scanning from
    left to right.  [skip] counts the characters still covered by the
    previous match, [b] tells whether [^] holds at the current position. *)
Fixpoint finditer_from (r : regex) (skip : nat) (b : bool) (s : str)
  : list str :=
  match s with
  | [] =>
      match skip, matches r (b, []) with
      | 0, _ :: _ => [[]]
      | _, _ => []
      end
  | c :: s' =>
      match skip with
      | S n => finditer_from r n (fst (after c s')) s'
      | 0 =>
          match matches r (b, s) with
          | q :: _ =>
              let m := matched s (snd q) in
              m :: finditer_from r (List.length m - 1) (fst (after c s')) s'
          | [] => finditer_from r 0 (fst (after c s')) s'
          end
      end
  end.

Definition finditer (r : regex) (s : str) : list str :=
  finditer_from r 0 true s.

End Engine.

End Re.

Import Re.

Declare Scope regex_scope.
Delimit Scope regex_scope with re.
Infix "+++" := Cat (at level 60, right associativity) : regex_scope.

(** ** [pandas.DataFrame(data, columns=headers)] on a list of rows

    The constructor lays the rows out in a grid as wide as the longest row,
    filling the cells a shorter row lacks with [None], and raises
    [ValueError] when that width differs from the number of column names.
    An empty list of rows gives an empty frame with the given columns. *)

Module Pandas.

Inductive exn : Type :=
| IndexError : exn
| ValueError : nat -> nat -> exn.   (* "n columns passed, passed data had k columns" *)

Record DataFrame : Type := mkFrame {
  columns : list str;
  rows : list (list (option str))
}.

Definition width (data : list (list str)) : nat :=
  fold_right (fun row k => Nat.max (List.length row) k) 0 data.

Definition pad (k : nat) (row : list str) : list (option str) :=
  map Some row ++ repeat None (k - List.length row).

Definition DataFrame_of (data : list (list str)) (headers : list str)
  : exn + DataFrame :=
  match data with
  | [] => inr (mkFrame headers [])
  | _ :: _ =>
      let k := width data in
      if k =? List.length headers
      then inr (mkFrame headers (map (pad k) data))
      else inl (ValueError (List.length headers) k)
  end.

End Pandas.

Import Pandas.

(** ** Effects of [extract_tables]

    The body of the [try] block can raise; the handler reports the
    exception through [st.error].  A computation takes the messages shown
    so far and returns a value or a raised exception, with the messages
    shown afterwards. *)

Module Eff.

Definition UI : Type := list exn.
Definition M (A : Type) : Type := UI -> (exn + A) * UI.

Definition ret {A} (a : A) : M A := fun ui => (inr a, ui).
Definition raise {A} (e : exn) : M A := fun ui => (inl e, ui).
Definition bind {A B} (m : M A) (f : A -> M B) : M B :=
  fun ui =>
    match m ui with
    | (inr a, ui') => f a ui'
    | (inl e, ui') => (inl e, ui')
    end.
Definition lift {A} (x : exn + A) : M A :=
  match x with inl e => raise e | inr a => ret a end.
(** [try: body  except Exception as e: handler(e)] *)
Definition try_except {A} (body : M A) (handler : exn -> M A) : M A :=
  fun ui =>
    match body ui with
    | (inr a, ui') => (inr a, ui')
    | (inl e, ui') => handler e ui'
    end.
(** [st.error(f"Error parsing table: {e}")] *)
Definition st_error (e : exn) : M unit := fun ui => (inr tt, ui ++ [e]).

End Eff.

Import Eff.

Notation "x <- m ;; k" := (bind m (fun x => k))
  (at level 61, m at next level, right associativity).

(** ** The extractors of app.py *)

Open Scope char_scope.
Open Scope nat_scope.

(** [r"\|.*?\|[\r\n][-|:\s]+[\r\n](?:\|.*?\|[\r\n])+"] *)
Definition table_row : regex :=
  (Chr "|" +++ Star false (Cls dot) +++ Chr "|" +++ Cls newline)%re.

Definition table_pattern : regex :=
  (Chr "|" +++ Star false (Cls dot) +++ Chr "|" +++ Cls newline
   +++ Plus (Cls sepchar) +++ Cls newline
   +++ Plus table_row)%re.

(** The cells of one line: [[c.strip() for c in line.split('|')[1:-1]]]. *)
Definition cells (line : str) : list str :=
  map strip (slice_1_m1 (split "|" line)).

(** The body of the [try] block, up to the construction of the frame. *)
Definition parse_table (table_text : str) : exn + DataFrame :=
  let lines :=
    map strip (filter (fun line => truthy (strip line)) (split LF table_text)) in
  match lines with
  | [] => inl IndexError                     (* lines[0] *)
  | line0 :: _ =>
      let headers := cells line0 in
      let data := map cells (skipn 2 lines) in
      DataFrame_of data headers
  end.

(** The [for] loop over the matches. *)
Fixpoint for_each_match (ms : list str) (tables : list DataFrame)
  : M (list DataFrame) :=
  match ms with
  | [] => ret tables
  | table_text :: ms' =>
      tables' <- try_except
                   (df <- lift (parse_table table_text) ;;
                    ret (tables ++ [df]))
                   (fun e => _ <- st_error e ;; ret tables) ;;
      for_each_match ms' tables'
  end.

Definition extract_tables (text : str) : M (list DataFrame) :=
  for_each_match (finditer true table_pattern text) [].

(** [r'^\d+\.|\#\#?|^\*\*'] *)
Definition heading_pattern : regex :=
  Alt (Bol +++ Plus (Cls digit) +++ Chr ".")%re
      (Alt (Chr "#" +++ Opt (Chr "#"))%re
           (Bol +++ Chr "*" +++ Chr "*")%re).

(** [re.match(heading_pattern, line.strip())] *)
Definition is_heading (line : str) : bool :=
  match re_match false heading_pattern (strip line) with
  | Some _ => true
  | None => false
  end.

(** The insertion-ordered dictionary [sections]. *)
Abbreviation dict := (list (list ascii * list ascii)) (only parsing).

Fixpoint str_eqb (a b : str) : bool :=
  match a, b with
  | [], [] => true
  | c :: a', d :: b' => (c =? d)%char && str_eqb a' b'
  | _, _ => false
  end.

(** [d[k] = v]: an existing key keeps its place, a new one goes last. *)
Fixpoint dict_set (d : dict) (k v : str) : dict :=
  match d with
  | [] => [(k, v)]
  | (k', v') :: d' =>
      if str_eqb k' k then (k', v) :: d' else (k', v') :: dict_set d' k v
  end.

Fixpoint dict_get (d : dict) (k : str) : option str :=
  match d with
  | [] => None
  | (k', v') :: d' => if str_eqb k' k then Some v' else dict_get d' k
  end.

Definition keys (d : dict) : list str := map fst d.

Record state : Type := mkState {
  sections : dict;
  current_section : option str;
  current_content : list str
}.

Definition init : state := mkState [] None [].

(** Truthiness of [current_section]: neither [None] nor the empty string. *)
Definition active (st : state) : bool :=
  match current_section st with
  | Some title => truthy title
  | None => false
  end.

(** The guarded store shared by the loop body and the code after the loop. *)
Definition commit (st : state) : dict :=
  match current_section st with
  | Some title =>
      if truthy title && truthy (current_content st) then
        let content := strip (join [LF] (current_content st)) in
        if truthy content then dict_set (sections st) title content
        else sections st
      else sections st
  | None => sections st
  end.

Definition title_of (line : str) : str := strip_chars (py "*# \n") line.

Definition step (st : state) (line : str) : state :=
  if is_heading line then
    mkState (commit st) (Some (title_of line)) []
  else if active st then
    mkState (sections st) (current_section st) (current_content st ++ [line])
  else st.

Definition sections_of_lines (lines : list str) : dict :=
  commit (fold_left step lines init).

Definition extract_sections (text : str) : dict :=
  sections_of_lines (split LF text).

(** * Vocabulary of the statements *)

(** Equality of strings is decidable. *)
Definition str_eq_dec (a b : str) : {a = b} + {a <> b} :=
  list_eq_dec ascii_dec a b.

(** ** The section extractor as a state machine *)

Definition run (st : state) (lines : list str) : state :=
  fold_left step lines st.

(** The state with the pending section stored and no section open. *)
Definition flush (st : state) : state := mkState (commit st) None [].

(** The rest of the input starts a new section, or is empty. *)
Definition at_boundary (rest : list str) : Prop :=
  match rest with
  | [] => True
  | h :: _ => is_heading h = true
  end.

(** ** The words of a pattern *)

(** The words of a pattern, anchors ignored: [^] is read as the empty
    word. *)
Inductive lang : regex -> str -> Prop :=
| L_eps : lang Eps []
| L_bol : lang Bol []
| L_cls f c : f c = true -> lang (Cls f) [c]
| L_cat r1 r2 w1 w2 : lang r1 w1 -> lang r2 w2 -> lang (Cat r1 r2) (w1 ++ w2)
| L_alt_l r1 r2 w : lang r1 w -> lang (Alt r1 r2) w
| L_alt_r r1 r2 w : lang r2 w -> lang (Alt r1 r2) w
| L_star_nil g r : lang (Star g r) []
| L_star_cons g r w1 w2 :
    lang r w1 -> w1 <> [] -> lang (Star g r) w2 -> lang (Star g r) (w1 ++ w2).

(** Patterns in which [^] does not occur. *)
Fixpoint anchor_free (r : regex) : bool :=
  match r with
  | Eps | Cls _ => true
  | Bol => false
  | Cat r1 r2 | Alt r1 r2 => anchor_free r1 && anchor_free r2
  | Star _ r1 => anchor_free r1
  end.

(** A position that leaves at least [tail] unread, and the position of
    [q] when [tail] is appended to the subject. *)
Definition keep (tail : str) (q : pos) : bool :=
  List.length tail <=? List.length (snd q).

Definition extend (tail : str) (q : pos) : pos := (fst q, snd q ++ tail).

(** [|...|] with no line feed between the pipes. *)
Definition pipe_line (w : str) : Prop :=
  exists x, w = "|" :: x ++ ["|"] /\ forallb dot x = true.

(** A pipe line and the line-break character that ends it. *)
Definition data_row (w : str) : Prop :=
  exists l n, w = l ++ [n] /\ pipe_line l /\ newline n = true.

(** A header, a line break, a non-empty run of separator characters, a
    line break, and one data row or more. *)
Definition table_block (w : str) : Prop :=
  exists hdr n1 sep n2 rows,
    w = hdr ++ n1 :: sep ++ n2 :: List.concat rows /\
    pipe_line hdr /\ newline n1 = true /\
    sep <> [] /\ forallb sepchar sep = true /\ newline n2 = true /\
    rows <> [] /\ Forall data_row rows.

(** The frames of the blocks that parse, and the exceptions of the blocks
    that do not, both in the order of the blocks. *)
Definition parsed (blocks : list str) : list DataFrame :=
  flat_map (fun t => match parse_table t with inr df => [df] | inl _ => [] end)
           blocks.

Definition reported (blocks : list str) : list exn :=
  flat_map (fun t => match parse_table t with inr _ => [] | inl e => [e] end)
           blocks.

(** Text without a pipe; text without a line-break character. *)
Definition no_pipe (s : str) : bool := forallb (fun c => negb (c =? "|")%char) s.
Definition no_newline (s : str) : bool := forallb (fun c => negb (newline c)) s.

(** A cell: text without a pipe and without a line-break character. *)
Definition cell (x : str) : bool := no_pipe x && no_newline x.

(** The line [|x|y|]. *)
Definition pipe_row (x y : str) : str := "|" :: x ++ "|" :: y ++ ["|"].

(** The block made of the header [|c1|c2|], the separator [|-|-|] and the
    data line [|a|b|], each ended by [\n]. *)
Definition one_row_block (c1 c2 a b : str) : str :=
  pipe_row c1 c2 ++ LF :: py "|-|-|" ++ LF :: pipe_row a b ++ [LF].

(** ** The display tests of [main] *)

(** [s.isspace()]: at least one character, and whitespace only. *)
Definition isspace (s : str) : bool := truthy s && forallb is_space s.

(** The test before a section is displayed:
    [content and not content.isspace()]. *)
Definition shown (content : str) : bool :=
  truthy content && negb (isspace content).

(** [table.empty]: no row, or no column. *)
Definition empty (df : DataFrame) : bool :=
  negb (truthy (rows df)) || negb (truthy (columns df)).

(** ** Pieces of text *)

(** The number of occurrences of a character. *)
Definition count (c : ascii) (s : str) : nat :=
  List.length (filter (fun d => (d =? c)%char) s).

(** The text [g1 b1 g2 b2 ... gn bn last]: blocks with the gaps in front of
    them, and what follows the last block. *)
Fixpoint weave (gaps blocks : list str) (last : str) : str :=
  match gaps, blocks with
  | g :: gs, b :: bs => g ++ b ++ weave gs bs last
  | _, _ => last
  end.

(** ** Tables written in markdown *)

(** [|x|] *)
Definition wrap (x : str) : str := "|" :: x ++ ["|"].

(** The lines of a text, each ended by a line feed. *)
Definition terminated (lines : list str) : str :=
  List.concat (map (fun l => l ++ [LF]) lines).

(** The row [|c1|c2|...|cn|]. *)
Definition markdown_row (cs : list str) : str := wrap (join ["|"] cs).

(** A table written out: the header row, a row of hyphens, the data rows. *)
Definition markdown_table (headers : list str) (data : list (list str)) : str :=
  terminated (markdown_row headers
              :: markdown_row (map (fun _ => ["-"]) headers)
              :: map markdown_row data).

(** A cell that is written and read back unchanged: no pipe, no line
    break, no blank at either end. *)
Definition plain (c : str) : bool := cell c && str_eqb (strip c) c.

(** The table pattern without its data rows:
    [\|.*?\|[\r\n][-|:\s]+[\r\n]]. *)
Definition table_head : regex :=
  (Chr "|" +++ Star false (Cls dot) +++ Chr "|" +++ Cls newline
   +++ Plus (Cls sepchar) +++ Cls newline)%re.

(** [s] put at the end of the sequence [r]. *)
Fixpoint cat_snoc (r s : regex) : regex :=
  match r with
  | Cat a b => Cat a (cat_snoc b s)
  | _ => Cat r s
  end.

(** The first match in the list [l] leaves [rest] unread. *)
Definition first_ends_at (l : list (bool * list ascii)) (rest : str) : Prop :=
  exists q l', l = q :: l' /\ snd q = rest.

(** The lines of a text, each ended by a carriage return and a line feed. *)
Definition crlf (lines : list str) : str :=
  List.concat (map (fun l => l ++ [CR; LF]) lines).

(** The table pattern without its header line:
    [[-|:\s]+[\r\n](?:\|.*?\|[\r\n])+]. *)
Definition table_tail : regex :=
  (Plus (Cls sepchar) +++ Cls newline +++ Plus table_row)%re.

(** ** [create_elaborate_prompt]

    The f-string of the source, line by line: the text starts with a line
    feed, has the request at the end of its fourth line, and ends with a
    line feed. *)
Definition create_elaborate_prompt (user_request : str) : str :=
  join [LF]
    [ [];
      py "You are an expert hobby advisor specializing in fitness and running. Your task is to create a detailed, data-driven analysis and recommendation plan for someone interested in taking up running as a hobby.";
      [];
      py "Here's the user request: " ++ user_request;
      [];
      py "Please structure your response in the following way:";
      [];
      py "1. Initial Assessment";
      py "- Analyze why running is a good hobby choice";
      py "- List the primary benefits (physical, mental, social)";
      py "- Identify potential challenges for beginners";
      [];
      py "2. Getting Started Plan";
      py "- Required equipment and estimated costs";
      py "- Recommended schedule for beginners";
      py "- Safety considerations and prerequisites";
      [];
      py "3. Progression Timeline";
      py "- Week-by-week breakdown for the first 8 weeks";
      py "- Monthly milestones for the first 6 months";
      py "- Long-term goals and achievements";
      [];
      py "4. Data Analysis";
      py "Please include data tables in your analysis with the following structure:";
      [];
      py "Equipment Costs:";
      py "| Item | Essential | Average Cost | Lifetime (Months) |";
      py "|------|-----------|--------------|-------------------|";
      [];
      py "Weekly Progress:";
      py "| Week | Running Minutes | Walking Minutes | Total Distance (Km) | Sessions Per Week |";
      py "|------|----------------|-----------------|-------------------|------------------|";
      [];
      py "Monthly Milestones:";
      py "| Month | Distance Goal (Km) | Avg Pace (Min/Km) | Long Run (Km) |";
      py "|-------|-------------------|-------------------|----------------|";
      [];
      py "5. Visualization Suggestions";
      py "- Weekly distance progression";
      py "- Pace improvements";
      py "- Heart rate zones";
      py "- Recovery metrics";
      [];
      py "6. Community and Support";
      py "- Recommended apps and tools";
      py "- Local groups or communities";
      py "- Online resources";
      [];
      py "7. Risk Analysis";
      py "Include a risk assessment matrix for common challenges and solutions.";
      [];
      py "Please provide a comprehensive response in a clear, structured manner with specific, actionable recommendations.";
      [] ].

(** * Properties *)

(** ** Strings *)

Lemma str_eqb_eq (a b : str) : str_eqb a b = true <-> a = b.
Proof.
  revert b; induction a as [|c a IH]; intros [|d b]; simpl.
  - tauto.
  - split; discriminate.
  - split; discriminate.
  - rewrite andb_true_iff, Ascii.eqb_eq, IH.
    split; [intros [-> ->]; reflexivity | intros H; inversion H; auto].
Qed.

Lemma str_eqb_refl (a : str) : str_eqb a a = true.
Proof. apply str_eqb_eq; reflexivity. Qed.

Lemma str_eqb_neq (a b : str) : str_eqb a b = false <-> a <> b.
Proof.
  rewrite <- str_eqb_eq. destruct (str_eqb a b); split; congruence.
Qed.

Lemma truthy_false {A} (l : list A) : truthy l = false <-> l = [].
Proof. destruct l; simpl; split; congruence. Qed.

Lemma truthy_true {A} (l : list A) : truthy l = true <-> l <> [].
Proof. destruct l; simpl; split; congruence. Qed.

Lemma dropwhile_nil_iff p s : dropwhile p s = [] <-> forallb p s = true.
Proof.
  induction s as [|c s IH]; simpl; [tauto|].
  destruct (p c); simpl; [exact IH | split; discriminate].
Qed.

Lemma dropwhile_head p s c s' : dropwhile p s = c :: s' -> p c = false.
Proof.
  induction s as [|d s IH]; simpl; [discriminate|].
  destruct (p d) eqn:E; [exact IH | intros H; inversion H; subst; exact E].
Qed.

Lemma forallb_rev {A} (p : A -> bool) l : forallb p (rev l) = forallb p l.
Proof.
  induction l as [|a l IH]; simpl; [reflexivity|].
  rewrite forallb_app, IH; simpl. rewrite andb_true_r, andb_comm; reflexivity.
Qed.

(** A string strips to the empty string exactly when every character of it
    is one of the stripped characters. *)
Lemma strip_by_nil_iff p s : strip_by p s = [] <-> forallb p s = true.
Proof.
  unfold strip_by, rstrip_by, lstrip_by. split.
  - intros H. apply (f_equal (@rev ascii)) in H. rewrite rev_involutive in H.
    simpl in H. apply dropwhile_nil_iff in H. rewrite forallb_rev in H.
    destruct (dropwhile p s) as [|c s'] eqn:E.
    + apply dropwhile_nil_iff; exact E.
    + apply dropwhile_head in E. simpl in H. rewrite E in H. discriminate.
  - intros H. apply dropwhile_nil_iff in H. rewrite H. reflexivity.
Qed.

Lemma strip_nil_iff s : strip s = [] <-> forallb is_space s = true.
Proof. apply strip_by_nil_iff. Qed.

Lemma forallb_join_space (ls : list str) :
  forallb is_space (join [LF] ls) = forallb (forallb is_space) ls.
Proof.
  induction ls as [|l ls IH]; [reflexivity|].
  destruct ls as [|l' ls].
  - simpl. rewrite andb_true_r. reflexivity.
  - change (join [LF] (l :: l' :: ls)) with (l ++ [LF] ++ join [LF] (l' :: ls)).
    rewrite !forallb_app, IH. reflexivity.
Qed.

(** Lines that strip to nothing make a body that strips to nothing. *)
Lemma strip_join_blank (ls : list str) :
  Forall (fun l => strip l = []) ls -> strip (join [LF] ls) = [].
Proof.
  intros H. apply strip_nil_iff. rewrite forallb_join_space.
  apply forallb_forall. intros l Hl. apply strip_nil_iff.
  rewrite Forall_forall in H. auto.
Qed.

Lemma split_nosep sep (l : str) : ~ In sep l -> split sep l = [l].
Proof.
  induction l as [|c l IH]; simpl; intros H; [reflexivity|].
  destruct (Ascii.eqb_spec c sep) as [->|_]; [tauto|].
  rewrite IH by tauto. reflexivity.
Qed.

Lemma split_app_sep sep (l s : str) :
  ~ In sep l -> split sep (l ++ sep :: s) = l :: split sep s.
Proof.
  induction l as [|c l IH]; simpl; intros H.
  - rewrite Ascii.eqb_refl. reflexivity.
  - destruct (Ascii.eqb_spec c sep) as [->|_]; [tauto|].
    rewrite IH by tauto. reflexivity.
Qed.

(** Splitting the text made of the lines [ls] gives [ls] back. *)
Lemma split_join (ls : list str) :
  ls <> [] -> Forall (fun l => ~ In LF l) ls ->
  split LF (join [LF] ls) = ls.
Proof.
  induction ls as [|l ls IH]; [congruence|]. intros _ H.
  inversion H as [|? ? Hl Hls]; subst.
  destruct ls as [|l' ls].
  - simpl. apply split_nosep; exact Hl.
  - change (join [LF] (l :: l' :: ls)) with (l ++ LF :: join [LF] (l' :: ls)).
    rewrite split_app_sep by exact Hl. rewrite IH; [reflexivity|congruence|exact Hls].
Qed.

(** ** The ordered dictionary *)

Lemma dict_get_set_same d k v : dict_get (dict_set d k v) k = Some v.
Proof.
  induction d as [|[k' v'] d IH]; simpl.
  - rewrite str_eqb_refl. reflexivity.
  - destruct (str_eqb k' k) eqn:E; simpl; rewrite E; [reflexivity | exact IH].
Qed.

Lemma dict_get_set_other d k v k' :
  k <> k' -> dict_get (dict_set d k v) k' = dict_get d k'.
Proof.
  intros Hk. induction d as [|[k1 v1] d IH]; simpl.
  - apply str_eqb_neq in Hk. rewrite Hk. reflexivity.
  - destruct (str_eqb k1 k) eqn:E; simpl.
    + apply str_eqb_eq in E; subst k1.
      apply str_eqb_neq in Hk. rewrite Hk. reflexivity.
    + destruct (str_eqb k1 k'); [reflexivity | exact IH].
Qed.

Lemma dict_get_None d k : dict_get d k = None <-> ~ In k (keys d).
Proof.
  induction d as [|[k' v'] d IH]; simpl; [tauto|].
  destruct (str_eqb k' k) eqn:E.
  - apply str_eqb_eq in E. split; [discriminate | tauto].
  - apply str_eqb_neq in E. rewrite IH. tauto.
Qed.

Lemma keys_dict_set_in d k v : In k (keys d) -> keys (dict_set d k v) = keys d.
Proof.
  induction d as [|[k' v'] d IH]; simpl; [tauto|]. intros H.
  destruct (str_eqb k' k) eqn:E; simpl; [reflexivity|].
  apply str_eqb_neq in E. f_equal. apply IH. tauto.
Qed.

Lemma keys_dict_set_notin d k v :
  ~ In k (keys d) -> keys (dict_set d k v) = keys d ++ [k].
Proof.
  induction d as [|[k' v'] d IH]; simpl; [reflexivity|]. intros H.
  destruct (str_eqb k' k) eqn:E; simpl.
  - apply str_eqb_eq in E. tauto.
  - f_equal. apply IH. tauto.
Qed.

Lemma keys_dict_set_ext d k v : exists ext, keys (dict_set d k v) = keys d ++ ext.
Proof.
  destruct (in_dec str_eq_dec k (keys d)) as [H|H].
  - exists []. rewrite app_nil_r. apply keys_dict_set_in; exact H.
  - exists [k]. apply keys_dict_set_notin; exact H.
Qed.

Lemma In_dict_set d k v kv : In kv (dict_set d k v) -> kv = (k, v) \/ In kv d.
Proof.
  induction d as [|[k' v'] d IH]; simpl.
  - intros [H|[]]; auto.
  - destruct (str_eqb k' k) eqn:E; simpl.
    + apply str_eqb_eq in E; subst k'. intros [H|H]; auto.
    + intros [H|H]; auto. destruct (IH H); auto.
Qed.

Lemma NoDup_keys_dict_set d k v : NoDup (keys d) -> NoDup (keys (dict_set d k v)).
Proof.
  intros H. destruct (in_dec str_eq_dec k (keys d)) as [Hin|Hin].
  - rewrite keys_dict_set_in by exact Hin. exact H.
  - rewrite keys_dict_set_notin by exact Hin.
    apply NoDup_rev in H. rewrite <- (rev_involutive (keys d ++ [k])).
    apply NoDup_rev. rewrite rev_app_distr. simpl. constructor; [|exact H].
    rewrite <- in_rev. exact Hin.
Qed.

(** ** The section extractor as a state machine *)

Lemma run_app st l1 l2 : run st (l1 ++ l2) = run (run st l1) l2.
Proof. apply fold_left_app. Qed.

Lemma run_cons st l ls : run st (l :: ls) = run (step st l) ls.
Proof. reflexivity. Qed.

Lemma blank_not_heading l : strip l = [] -> is_heading l = false.
Proof. unfold is_heading. intros ->. reflexivity. Qed.

Lemma step_heading st h :
  is_heading h = true -> step st h = mkState (commit st) (Some (title_of h)) [].
Proof. unfold step. intros ->. reflexivity. Qed.

Lemma run_body_active st body :
  active st = true -> Forall (fun l => is_heading l = false) body ->
  run st body =
  mkState (sections st) (current_section st) (current_content st ++ body).
Proof.
  intros Ha H. revert st Ha.
  induction H as [|l body Hl _ IH]; intros st Ha.
  - rewrite app_nil_r. destruct st; reflexivity.
  - rewrite run_cons. unfold step at 1. rewrite Hl, Ha.
    rewrite IH by exact Ha. simpl. rewrite <- app_assoc. reflexivity.
Qed.

Lemma run_body_idle st body :
  active st = false -> Forall (fun l => is_heading l = false) body ->
  run st body = st.
Proof.
  intros Ha H. induction H as [|l body Hl _ IH]; [reflexivity|].
  rewrite run_cons. unfold step at 1. rewrite Hl, Ha. exact IH.
Qed.

Lemma commit_flush st : commit (flush st) = commit st.
Proof. reflexivity. Qed.

Lemma run_boundary st rest :
  at_boundary rest -> commit (run st rest) = commit (run (flush st) rest).
Proof.
  destruct rest as [|h rest]; simpl; intros H; [reflexivity|].
  change (commit (run (step st h) rest) = commit (run (step (flush st) h) rest)).
  rewrite !step_heading by exact H. reflexivity.
Qed.

(** What the guarded store does: nothing, or one assignment of a non-empty
    trimmed body to a non-empty title. *)
Lemma commit_cases st :
  commit st = sections st \/
  exists t, current_section st = Some t /\ t <> [] /\
            current_content st <> [] /\
            strip (join [LF] (current_content st)) <> [] /\
            commit st =
            dict_set (sections st) t (strip (join [LF] (current_content st))).
Proof.
  unfold commit. destruct (current_section st) as [t|]; [|auto].
  destruct (truthy t) eqn:Et; [|auto].
  destruct (truthy (current_content st)) eqn:Ec; [|auto]. simpl.
  destruct (truthy (strip (join [LF] (current_content st)))) eqn:Eb; [|auto].
  right. exists t.
  apply truthy_true in Et. apply truthy_true in Ec. apply truthy_true in Eb.
  auto.
Qed.

Lemma commit_store st t :
  current_section st = Some t -> t <> [] ->
  strip (join [LF] (current_content st)) <> [] ->
  commit st = dict_set (sections st) t (strip (join [LF] (current_content st))).
Proof.
  intros Hs Ht Hb. unfold commit. rewrite Hs.
  apply truthy_true in Ht. rewrite Ht.
  assert (Hc : truthy (current_content st) = true).
  { apply truthy_true. intros E. rewrite E in Hb. apply Hb. reflexivity. }
  rewrite Hc. simpl. apply truthy_true in Hb. rewrite Hb. reflexivity.
Qed.

Lemma commit_skip st :
  active st = false \/ strip (join [LF] (current_content st)) = [] ->
  commit st = sections st.
Proof.
  unfold commit, active. destruct (current_section st) as [t|]; [|reflexivity].
  intros [H|H].
  - rewrite H. reflexivity.
  - rewrite H. simpl. destruct (truthy t && truthy (current_content st)); reflexivity.
Qed.

Lemma sections_step st l :
  sections (step st l) = sections st \/ sections (step st l) = commit st.
Proof.
  unfold step. destruct (is_heading l); [right; reflexivity|].
  destruct (active st); left; reflexivity.
Qed.

(** A property of the dictionary that assignments of non-empty bodies to
    non-empty titles keep holds of every result. *)
Lemma run_invariant (P : dict -> Prop) :
  (forall d k v, P d -> k <> [] -> v <> [] -> P (dict_set d k v)) ->
  forall ls st, P (sections st) -> P (commit (run st ls)).
Proof.
  intros HP.
  assert (Hc : forall st, P (sections st) -> P (commit st)).
  { intros st H. destruct (commit_cases st) as [E|(t & _ & Ht & _ & Hb & E)];
      rewrite E; auto. }
  induction ls as [|l ls IH]; intros st H; [apply Hc; exact H|].
  rewrite run_cons. apply IH.
  destruct (sections_step st l) as [E|E]; rewrite E; auto.
Qed.

(** Keys are only ever added at the end. *)
Lemma keys_run_ext ls st :
  exists ext, keys (commit (run st ls)) = keys (sections st) ++ ext.
Proof.
  apply (run_invariant (fun d => exists ext, keys d = keys (sections st) ++ ext)).
  - intros d k v [ext E] _ _. destruct (keys_dict_set_ext d k v) as [ext' E'].
    exists (ext ++ ext'). rewrite E', E, app_assoc. reflexivity.
  - exists []. rewrite app_nil_r. reflexivity.
Qed.

(** A title that is neither pending nor the title of a later heading keeps
    its entry, or its absence. *)
Lemma run_frame t ls : forall st,
  current_section st <> Some t ->
  Forall (fun l => is_heading l = true -> title_of l <> t) ls ->
  dict_get (commit (run st ls)) t = dict_get (sections st) t.
Proof.
  assert (Hc : forall st, current_section st <> Some t ->
                          dict_get (commit st) t = dict_get (sections st) t).
  { intros st Hs. destruct (commit_cases st) as [E|(t' & Ht' & _ & _ & _ & E)];
      rewrite E; [reflexivity|].
    apply dict_get_set_other. congruence. }
  induction ls as [|l ls IH]; intros st Hs H; [apply Hc; exact Hs|].
  inversion H as [|? ? Hl Hls]; subst. rewrite run_cons.
  unfold step. destruct (is_heading l) eqn:E.
  - rewrite IH; simpl; [apply Hc; exact Hs | | exact Hls].
    intros E'. inversion E'. apply (Hl eq_refl). assumption.
  - destruct (active st); rewrite IH; auto.
Qed.

Lemma extract_sections_lines (lines : list str) :
  lines <> [] -> Forall (fun l => ~ In LF l) lines ->
  extract_sections (join [LF] lines) = sections_of_lines lines.
Proof.
  intros H1 H2. unfold extract_sections. rewrite split_join; auto.
Qed.

Lemma sections_of_lines_nil_line : sections_of_lines [[]] = sections_of_lines [].
Proof. reflexivity. Qed.

(** The text made of no lines and the text made of one empty line are the
    same text; the extractor sees the same thing in both. *)
Lemma extract_sections_join (lines : list str) :
  Forall (fun l => ~ In LF l) lines ->
  extract_sections (join [LF] lines) = sections_of_lines lines.
Proof.
  intros H. destruct lines as [|l ls]; [reflexivity|].
  apply extract_sections_lines; [congruence | exact H].
Qed.

Lemma title_not_key_without_heading t ls :
  Forall (fun l => is_heading l = true -> title_of l <> t) ls ->
  ~ In t (keys (sections_of_lines ls)).
Proof.
  intros H. apply dict_get_None. unfold sections_of_lines.
  fold (run init ls). rewrite run_frame; [reflexivity | discriminate | exact H].
Qed.

(** One section: a heading with a non-empty title and its body lines. *)
Lemma run_section st h body :
  is_heading h = true -> title_of h <> [] ->
  Forall (fun l => is_heading l = false) body ->
  run st (h :: body) = mkState (commit st) (Some (title_of h)) body.
Proof.
  intros Hh Ht Hb. rewrite run_cons, step_heading by exact Hh.
  rewrite run_body_active; [reflexivity | | exact Hb].
  unfold active; simpl. apply truthy_true; exact Ht.
Qed.

Lemma sections_of_lines_section pre h body rest :
  is_heading h = true -> title_of h <> [] ->
  Forall (fun l => is_heading l = false) body ->
  strip (join [LF] body) <> [] ->
  at_boundary rest ->
  sections_of_lines (pre ++ h :: body ++ rest) =
  commit (run (mkState (dict_set (sections_of_lines pre) (title_of h)
                                 (strip (join [LF] body))) None []) rest).
Proof.
  intros Hh Ht Hb Hne Hr. unfold sections_of_lines. fold (run init pre).
  change (fold_left step (pre ++ h :: body ++ rest) init)
    with (run init (pre ++ (h :: body) ++ rest)).
  rewrite !run_app, run_section by assumption.
  rewrite run_boundary by exact Hr. unfold flush.
  rewrite (@commit_store (mkState (commit (run init pre)) (Some (title_of h)) body)
             (title_of h)); auto.
Qed.

Lemma In_keys_ext {k : str} {d1 d2 : list str} :
  In k d1 -> (exists ext, d2 = d1 ++ ext) -> In k d2.
Proof. intros H [ext ->]. apply in_or_app; auto. Qed.

(** Boolean checks for the side conditions on concrete lines. *)

Lemma no_LF_check (ls : list str) :
  forallb (fun l => negb (mem LF l)) ls = true ->
  Forall (fun l => ~ In LF l) ls.
Proof.
  intros H. apply Forall_forall. intros l Hl Hin.
  rewrite forallb_forall in H. specialize (H l Hl).
  apply negb_true_iff in H. unfold mem in H.
  assert (E : existsb (fun d => (LF =? d)%char) l = true).
  { apply existsb_exists. exists LF. split; [exact Hin | apply Ascii.eqb_refl]. }
  congruence.
Qed.

Lemma not_heading_check (ls : list str) :
  forallb (fun l => negb (is_heading l)) ls = true ->
  Forall (fun l => is_heading l = false) ls.
Proof.
  intros H. apply Forall_forall. intros l Hl.
  rewrite forallb_forall in H. apply negb_true_iff. auto.
Qed.

Lemma other_title_check (t : str) (ls : list str) :
  forallb (fun l => negb (is_heading l && str_eqb (title_of l) t)) ls = true ->
  Forall (fun l => is_heading l = true -> title_of l <> t) ls.
Proof.
  intros H. apply Forall_forall. intros l Hl Hh Ht.
  rewrite forallb_forall in H. specialize (H l Hl).
  rewrite Hh, Ht, str_eqb_refl in H. discriminate.
Qed.

Lemma blank_check (ls : list str) :
  forallb (fun l => negb (truthy (strip l))) ls = true ->
  Forall (fun l => strip l = []) ls.
Proof.
  intros H. apply Forall_forall. intros l Hl.
  rewrite forallb_forall in H. specialize (H l Hl).
  apply negb_true_iff in H. apply truthy_false; exact H.
Qed.

Lemma truthy_neq {A} (l : list A) : truthy l = true -> l <> [].
Proof. apply truthy_true. Qed.

(** ** Claims about [extract_sections] *)

(** C7. [extract_sections] is defined on every string: it returns the empty
    mapping for the empty string, and the empty mapping for every string
    none of whose lines is a heading line. *)
Theorem extract_sections_no_headings :
  (forall text, exists d, extract_sections text = d) /\
  extract_sections [] = [] /\
  (forall text,
      Forall (fun l => is_heading l = false) (split LF text) ->
      extract_sections text = []).
Proof.
  split; [|split].
  - intros text. eexists. reflexivity.
  - reflexivity.
  - intros text H. unfold extract_sections, sections_of_lines.
    fold (run init (split LF text)). rewrite run_body_idle; auto.
Qed.

Lemma extract_sections_no_headings_witness :
  Forall (fun l => is_heading l = false)
         (split LF (py "Some text\nwith no heading: 3 lines\n")) /\
  extract_sections (py "Some text\nwith no heading: 3 lines\n") = [].
Proof.
  assert (H : Forall (fun l => is_heading l = false)
                (split LF (py "Some text\nwith no heading: 3 lines\n"))).
  { apply not_heading_check. vm_compute. reflexivity. }
  split; [exact H|].
  exact (proj2 (proj2 extract_sections_no_headings) _ H).
Defined.

(** C8. The empty string is never a key of the result; a heading line whose
    title is empty opens no section, and the non-heading lines that follow
    it, up to the next heading, have no effect on the result. *)
Theorem empty_title_opens_no_section :
  (forall text, ~ In [] (keys (extract_sections text))) /\
  (forall pre h body rest,
      Forall (fun l => ~ In LF l) (pre ++ h :: body ++ rest) ->
      is_heading h = true -> title_of h = [] ->
      Forall (fun l => is_heading l = false) body ->
      extract_sections (join [LF] (pre ++ h :: body ++ rest)) =
      extract_sections (join [LF] (pre ++ h :: rest))).
Proof.
  split.
  - intros text. unfold extract_sections, sections_of_lines.
    fold (run init (split LF text)).
    apply (run_invariant (fun d => ~ In [] (keys d))); [|simpl; tauto].
    intros d k v Hd Hk _ Hin. unfold keys in Hin. apply in_map_iff in Hin.
    destruct Hin as ([k' v'] & Ek & Hin). simpl in Ek; subst k'.
    apply In_dict_set in Hin. destruct Hin as [E|Hin].
    + inversion E. congruence.
    + apply Hd. apply in_map_iff. exists ([], v'). auto.
  - intros pre h body rest HLF Hh Ht Hb.
    assert (HLF' : Forall (fun l => ~ In LF l) (pre ++ h :: rest)).
    { rewrite Forall_app in HLF |- *. destruct HLF as [H1 H2]. split; [exact H1|].
      inversion H2 as [|? ? H3 H4]; subst. constructor; [exact H3|].
      rewrite Forall_app in H4. tauto. }
    rewrite !extract_sections_join by assumption.
    unfold sections_of_lines. fold (run init (pre ++ h :: body ++ rest)).
    fold (run init (pre ++ h :: rest)).
    rewrite !run_app, !run_cons, run_app, step_heading by exact Hh.
    rewrite (@run_body_idle _ body); [reflexivity | | exact Hb].
    unfold active; simpl. rewrite Ht. reflexivity.
Qed.

Lemma empty_title_opens_no_section_witness :
  extract_sections (py "# A\nx\n##\nlost\nalso lost\n# B\ny") =
  extract_sections (py "# A\nx\n##\n# B\ny").
Proof.
  apply (proj2 empty_title_opens_no_section
           [py "# A"; py "x"] (py "##") [py "lost"; py "also lost"]
           [py "# B"; py "y"]).
  - repeat constructor; simpl; intuition discriminate.
  - reflexivity.
  - reflexivity.
  - repeat constructor.
Defined.

Lemma In_keys_dict_set d k v : In k (keys (dict_set d k v)).
Proof.
  destruct (in_dec str_eq_dec k (keys d)) as [H|H].
  - rewrite keys_dict_set_in; assumption.
  - rewrite keys_dict_set_notin by assumption. apply in_or_app. simpl. auto.
Qed.

Lemma Forall_app_section {P : str -> Prop} {pre h body rest} :
  Forall P (pre ++ h :: body ++ rest) ->
  Forall P pre /\ P h /\ Forall P body /\ Forall P rest.
Proof.
  rewrite Forall_app. intros [H1 H2]. inversion H2 as [|? ? H3 H4]; subst.
  rewrite Forall_app in H4. tauto.
Qed.

(** A heading whose body is blank leaves no trace. *)
Lemma sections_of_lines_blank pre h blanks rest :
  is_heading h = true -> Forall (fun l => strip l = []) blanks ->
  at_boundary rest ->
  sections_of_lines (pre ++ h :: blanks ++ rest) = sections_of_lines (pre ++ rest).
Proof.
  intros Hh Hb Hr. unfold sections_of_lines.
  change (fold_left step (pre ++ h :: blanks ++ rest) init)
    with (run init (pre ++ (h :: blanks) ++ rest)).
  fold (run init (pre ++ rest)). rewrite !run_app, run_cons.
  rewrite step_heading by exact Hh.
  assert (Hnh : Forall (fun l => is_heading l = false) blanks).
  { eapply Forall_impl; [|exact Hb]. apply blank_not_heading. }
  set (S0 := run init pre).
  set (S1 := run (mkState (commit S0) (Some (title_of h)) []) blanks).
  rewrite (run_boundary S1), (run_boundary S0) by exact Hr.
  f_equal. f_equal. unfold flush. f_equal. subst S1.
  destruct (truthy (title_of h)) eqn:Et.
  - rewrite run_body_active by (auto; unfold active; simpl; exact Et).
    rewrite commit_skip; [reflexivity|]. right. simpl.
    apply strip_join_blank; exact Hb.
  - rewrite run_body_idle by (auto; unfold active; simpl; exact Et).
    rewrite commit_skip; [reflexivity|]. left. unfold active; simpl; exact Et.
Qed.

(** C5 (amended).  No entry of the result has an empty body.  A heading
    followed only by blank lines up to the next heading, or up to the end
    of the input, contributes nothing: the result is that of the input
    without the heading and the blank lines.  A heading with a non-empty
    title followed by a body that is not blank is a key of the result. *)
Theorem empty_bodies_dropped :
  (forall text k v, In (k, v) (extract_sections text) -> v <> []) /\
  (forall pre h blanks rest,
      Forall (fun l => ~ In LF l) (pre ++ h :: blanks ++ rest) ->
      is_heading h = true ->
      Forall (fun l => strip l = []) blanks ->
      at_boundary rest ->
      extract_sections (join [LF] (pre ++ h :: blanks ++ rest)) =
      extract_sections (join [LF] (pre ++ rest))) /\
  (forall pre h body rest,
      Forall (fun l => ~ In LF l) (pre ++ h :: body ++ rest) ->
      is_heading h = true -> title_of h <> [] ->
      Forall (fun l => is_heading l = false) body ->
      strip (join [LF] body) <> [] ->
      at_boundary rest ->
      In (title_of h)
         (keys (extract_sections (join [LF] (pre ++ h :: body ++ rest))))) /\
  extract_sections (py "**Bold**\n\n**Bold2**\nBody\n") = [(py "Bold2", py "Body")].
Proof.
  split; [|split; [|split]].
  - intros text. unfold extract_sections, sections_of_lines.
    fold (run init (split LF text)).
    apply (run_invariant (fun d => forall k v, In (k, v) d -> v <> []));
      [|simpl; tauto].
    intros d k v Hd _ Hv k' v' Hin. apply In_dict_set in Hin.
    destruct Hin as [E|Hin]; [inversion E; subst; exact Hv | eauto].
  - intros pre h blanks rest HLF Hh Hb Hr.
    destruct (Forall_app_section HLF) as (H1 & _ & _ & H4).
    rewrite !extract_sections_join;
      [apply sections_of_lines_blank; assumption | | exact HLF].
    apply Forall_app; auto.
  - intros pre h body rest HLF Hh Ht Hb Hne Hr.
    rewrite extract_sections_join by exact HLF.
    rewrite sections_of_lines_section by assumption.
    eapply In_keys_ext; [|apply keys_run_ext]. simpl. apply In_keys_dict_set.
  - reflexivity.
Qed.

Lemma empty_bodies_dropped_witness :
  In (py "Bold2", py "Body")
     (extract_sections (py "**Bold**\n\n**Bold2**\nBody\n")) /\
  py "Body" <> [] /\
  extract_sections (py "# A\nx\n# Empty\n \n\n# B\ny") =
  extract_sections (py "# A\nx\n# B\ny") /\
  In (py "B") (keys (extract_sections (py "# A\nx\n# B\ny"))).
Proof.
  assert (H : In (py "Bold2", py "Body")
                (extract_sections (py "**Bold**\n\n**Bold2**\nBody\n"))).
  { left. reflexivity. }
  split; [exact H|]. split; [|split].
  - exact (proj1 empty_bodies_dropped _ _ _ H).
  - apply (proj1 (proj2 empty_bodies_dropped)
             [py "# A"; py "x"] (py "# Empty") [py " "; []] [py "# B"; py "y"]).
    + repeat constructor; simpl; intuition discriminate.
    + reflexivity.
    + repeat constructor.
    + reflexivity.
  - apply (proj1 (proj2 (proj2 empty_bodies_dropped))
             [py "# A"; py "x"] (py "# B") [py "y"] []).
    + repeat constructor; simpl; intuition discriminate.
    + reflexivity.
    + discriminate.
    + repeat constructor.
    + discriminate.
    + exact I.
Defined.

(** C5, as stated, fails: the heading line [#] is followed by the non-blank
    line [Body], and the result has no entry for it. *)
Lemma heading_with_body_not_retained :
  is_heading (py "#") = true /\
  is_heading (py "Body") = false /\ strip (py "Body") <> [] /\
  extract_sections (py "#\nBody\n") = [] /\
  ~ In (title_of (py "#")) (keys (extract_sections (py "#\nBody\n"))).
Proof.
  repeat split; try reflexivity; try discriminate. simpl. tauto.
Qed.

Lemma key_has_heading text k :
  In k (keys (extract_sections text)) ->
  exists h, In h (split LF text) /\ is_heading h = true /\ k = title_of h.
Proof.
  intros Hin.
  destruct (existsb (fun l => is_heading l && str_eqb (title_of l) k)
                    (split LF text)) eqn:E.
  - apply existsb_exists in E. destruct E as (h & Hh & E).
    apply andb_true_iff in E. destruct E as [E1 E2].
    apply str_eqb_eq in E2. eauto.
  - exfalso. revert Hin. apply title_not_key_without_heading.
    apply Forall_forall. intros l Hl Hh Ht.
    assert (E' : existsb (fun l => is_heading l && str_eqb (title_of l) k)
                         (split LF text) = true).
    { apply existsb_exists. exists l. split; [exact Hl|].
      rewrite Hh, Ht, str_eqb_refl. reflexivity. }
    congruence.
Qed.

(** C1 (amended).  On the sample input the result maps ["1. Intro"] to
    ["Hello world"] and ["2. Details"] to ["More text"], in that order.
    Every key of a result is a heading line of the input with the
    characters [*], [#], space and newline removed from both of its ends
    (digits and [.] are kept); and a heading line with a non-empty title and
    a non-blank body, whose title no later heading repeats, is mapped to
    its trimmed body. *)
Theorem extract_sections_titles :
  extract_sections (py "1. Intro\nHello world\n\n2. Details\nMore text\n") =
  [(py "1. Intro", py "Hello world"); (py "2. Details", py "More text")] /\
  (forall text k,
      In k (keys (extract_sections text)) ->
      exists h, In h (split LF text) /\ is_heading h = true /\
                k = strip_chars (py "*# \n") h) /\
  (forall pre h body rest,
      Forall (fun l => ~ In LF l) (pre ++ h :: body ++ rest) ->
      is_heading h = true -> strip_chars (py "*# \n") h <> [] ->
      Forall (fun l => is_heading l = false) body ->
      strip (join [LF] body) <> [] ->
      at_boundary rest ->
      Forall (fun l => is_heading l = true ->
                       strip_chars (py "*# \n") l <> strip_chars (py "*# \n") h)
             rest ->
      dict_get (extract_sections (join [LF] (pre ++ h :: body ++ rest)))
               (strip_chars (py "*# \n") h) =
      Some (strip (join [LF] body))).
Proof.
  split; [reflexivity|]. split; [exact key_has_heading|].
  intros pre h body rest HLF Hh Ht Hb Hne Hr Hrest.
  rewrite extract_sections_join by exact HLF.
  fold (title_of h) in *.
  rewrite sections_of_lines_section by assumption.
  rewrite run_frame; [simpl; apply dict_get_set_same | discriminate | exact Hrest].
Qed.

Lemma extract_sections_titles_witness :
  In (py "2. Details")
     (keys (extract_sections (py "1. Intro\nHello world\n\n2. Details\nMore text\n"))) /\
  (exists h,
      In h (split LF (py "1. Intro\nHello world\n\n2. Details\nMore text\n")) /\
      is_heading h = true /\ py "2. Details" = strip_chars (py "*# \n") h) /\
  dict_get (extract_sections (py "intro\n## 1. Plan **\nrun\n\nwalk\n# End\nbye"))
           (py "1. Plan") = Some (py "run\n\nwalk").
Proof.
  assert (H : In (py "2. Details")
                (keys (extract_sections
                         (py "1. Intro\nHello world\n\n2. Details\nMore text\n")))).
  { right. left. reflexivity. }
  split; [exact H|]. split.
  - exact (proj1 (proj2 extract_sections_titles) _ _ H).
  - apply (proj2 (proj2 extract_sections_titles)
             [py "intro"] (py "## 1. Plan **") [py "run"; []; py "walk"]
             [py "# End"; py "bye"]).
    + repeat constructor; simpl; intuition discriminate.
    + reflexivity.
    + discriminate.
    + repeat constructor.
    + discriminate.
    + reflexivity.
    + repeat constructor; simpl; intros _; discriminate.
Defined.

(** C1, as stated, fails: the numbers are not removed from the titles. *)
Lemma numbered_titles_keep_number :
  extract_sections (py "1. Intro\nHello world\n\n2. Details\nMore text\n") <>
  [(py "Intro", py "Hello world"); (py "Details", py "More text")].
Proof. discriminate. Qed.

(** C2 (amended).  Let two heading lines have the same title [t], not
    empty, each followed by a non-blank body, the first being the first
    heading of the input with that title and the second the last one.  The
    result has [t] as a key exactly once, maps it to the body of the second
    heading, and lists it at the place where the first one was stored:
    right after the keys of the text that precedes the first heading. *)
Theorem duplicate_title_last_body_first_position :
  forall pre h1 b1 mid h2 b2 rest t,
    Forall (fun l => ~ In LF l) (pre ++ h1 :: b1 ++ mid ++ h2 :: b2 ++ rest) ->
    is_heading h1 = true -> is_heading h2 = true ->
    title_of h1 = t -> title_of h2 = t -> t <> [] ->
    Forall (fun l => is_heading l = false) b1 ->
    Forall (fun l => is_heading l = false) b2 ->
    strip (join [LF] b1) <> [] -> strip (join [LF] b2) <> [] ->
    at_boundary mid -> at_boundary rest ->
    Forall (fun l => is_heading l = true -> title_of l <> t) pre ->
    Forall (fun l => is_heading l = true -> title_of l <> t) rest ->
    count_occ str_eq_dec
      (keys (extract_sections
               (join [LF] (pre ++ h1 :: b1 ++ mid ++ h2 :: b2 ++ rest)))) t = 1 /\
    dict_get (extract_sections
                (join [LF] (pre ++ h1 :: b1 ++ mid ++ h2 :: b2 ++ rest))) t =
    Some (strip (join [LF] b2)) /\
    exists later,
      keys (extract_sections
              (join [LF] (pre ++ h1 :: b1 ++ mid ++ h2 :: b2 ++ rest))) =
      keys (extract_sections (join [LF] pre)) ++ t :: later.
Proof.
  intros pre h1 b1 mid h2 b2 rest t HLF Hh1 Hh2 Et1 Et2 Ht Hb1 Hb2 Hn1 Hn2
         Hmid Hrest Fpre Frest.
  destruct (Forall_app_section HLF) as (Lpre & _ & _ & _).
  rewrite extract_sections_join by exact HLF.
  rewrite (extract_sections_join Lpre).
  set (R := sections_of_lines (pre ++ h1 :: b1 ++ mid ++ h2 :: b2 ++ rest)).
  set (D0 := sections_of_lines pre).
  set (D1 := dict_set D0 t (strip (join [LF] b1))).
  set (Sc := run (mkState D1 None []) mid).
  set (D2 := dict_set (commit Sc) t (strip (join [LF] b2))).
  assert (ER : R = commit (run (mkState D2 None []) rest)).
  { subst R. rewrite sections_of_lines_section; try assumption; try congruence.
    - rewrite Et1. fold D0 D1.
      rewrite run_app. change (h2 :: b2 ++ rest) with ((h2 :: b2) ++ rest).
      rewrite run_app. fold Sc.
      rewrite run_section by (assumption || congruence).
      rewrite run_boundary by exact Hrest. unfold flush.
      rewrite (@commit_store (mkState (commit Sc) (Some (title_of h2)) b2)
                 (title_of h2)); simpl; try congruence.
      rewrite Et2. reflexivity.
    - destruct mid; simpl; assumption. }
  assert (K0 : ~ In t (keys D0)) by (apply title_not_key_without_heading; exact Fpre).
  assert (K1 : keys D1 = keys D0 ++ [t]) by (apply keys_dict_set_notin; exact K0).
  destruct (keys_run_ext mid (mkState D1 None [])) as [ext1 K2].
  simpl in K2. fold Sc in K2. rewrite K1 in K2.
  assert (K3 : keys D2 = keys (commit Sc)).
  { apply keys_dict_set_in. rewrite K2. apply in_or_app. left.
    apply in_or_app. right. simpl. auto. }
  destruct (keys_run_ext rest (mkState D2 None [])) as [ext2 K4].
  simpl in K4. rewrite <- ER, K3, K2 in K4.
  assert (KR : keys R = keys D0 ++ t :: (ext1 ++ ext2)).
  { rewrite K4, <- !app_assoc. reflexivity. }
  split; [|split].
  - apply NoDup_count_occ'.
    + subst R. unfold sections_of_lines.
      apply (run_invariant (fun d => NoDup (keys d))); [|constructor].
      intros d k v Hd _ _. apply NoDup_keys_dict_set; exact Hd.
    + rewrite KR. apply in_or_app. right. left. reflexivity.
  - rewrite ER, run_frame; [simpl; apply dict_get_set_same | discriminate | exact Frest].
  - exists (ext1 ++ ext2). exact KR.
Qed.

Lemma duplicate_title_last_body_first_position_witness :
  count_occ str_eq_dec
    (keys (extract_sections
             (py "# A\nx\n# Dup\nfirst\n# B\ny\n## Dup\nsecond\n# C\nz")))
    (py "Dup") = 1 /\
  dict_get (extract_sections
              (py "# A\nx\n# Dup\nfirst\n# B\ny\n## Dup\nsecond\n# C\nz"))
           (py "Dup") = Some (py "second") /\
  exists later,
    keys (extract_sections
            (py "# A\nx\n# Dup\nfirst\n# B\ny\n## Dup\nsecond\n# C\nz")) =
    keys (extract_sections (py "# A\nx")) ++ py "Dup" :: later.
Proof.
  apply (@duplicate_title_last_body_first_position
           [py "# A"; py "x"] (py "# Dup") [py "first"] [py "# B"; py "y"]
           (py "## Dup") [py "second"] [py "# C"; py "z"] (py "Dup")).
  - repeat constructor; simpl; intuition discriminate.
  - reflexivity.
  - reflexivity.
  - reflexivity.
  - reflexivity.
  - discriminate.
  - repeat constructor.
  - repeat constructor.
  - discriminate.
  - discriminate.
  - reflexivity.
  - reflexivity.
  - apply other_title_check. vm_compute. reflexivity.
  - apply other_title_check. vm_compute. reflexivity.
Defined.

(** C2, as stated, fails: two headings with the same, empty, title, each
    followed by a body, leave no entry at all. *)
Lemma duplicate_empty_title_absent :
  is_heading (py "#") = true /\ title_of (py "#") = [] /\
  strip (py "A") <> [] /\ strip (py "B") <> [] /\
  count_occ str_eq_dec (keys (extract_sections (py "#\nA\n#\nB\n")))
            (title_of (py "#")) = 0.
Proof. repeat split; try reflexivity; discriminate. Qed.

(** ** The matcher *)

Ltac case_ltb :=
  match goal with
  | |- context [Nat.ltb ?a ?b] => destruct (Nat.ltb_spec a b)
  end.


Section EngineFacts.

Variable m : bool.

Lemma flat_map_nil {A B} (f : A -> list B) l :
  (forall x, In x l -> f x = []) -> flat_map f l = [].
Proof.
  induction l as [|a l IH]; simpl; intros H; [reflexivity|].
  rewrite (H a) by auto. apply IH. auto.
Qed.

(** Any fuel that covers the text left gives the same loop. *)
Lemma star_loop_fuel body g n1 : forall n2 p,
  List.length (snd p) <= n1 -> List.length (snd p) <= n2 ->
  star_loop body g n1 p = star_loop body g n2 p.
Proof.
  induction n1 as [|n1 IH]; intros [|n2] p H1 H2; simpl; try reflexivity.
  - rewrite flat_map_nil; [destruct g; reflexivity|].
    intros q _. case_ltb;
      [lia | reflexivity].
  - rewrite flat_map_nil; [destruct g; reflexivity|].
    intros q _. case_ltb;
      [lia | reflexivity].
  - assert (E : forall q,
               (if List.length (snd q) <? List.length (snd p)
                then star_loop body g n1 q else []) =
               (if List.length (snd q) <? List.length (snd p)
                then star_loop body g n2 q else [])).
    { intros q. case_ltb;
        [apply IH; lia | reflexivity]. }
    rewrite (flat_map_ext _ _ E). reflexivity.
Qed.

(** The unfolding of a repetition: one more iteration that consumes
    something, or stop. *)
Lemma matches_star g r p :
  matches m (Star g r) p =
  let more :=
    flat_map (fun q => if List.length (snd q) <? List.length (snd p)
                       then matches m (Star g r) q else [])
             (matches m r p) in
  if g then more ++ [p] else p :: more.
Proof.
  change (matches m (Star g r) p)
    with (star_loop (matches m r) g (List.length (snd p)) p).
  destruct (List.length (snd p)) as [|n] eqn:E; cbn [star_loop]; cbv zeta.
  - rewrite flat_map_nil; [destruct g; reflexivity|].
    intros q _. case_ltb; [lia|reflexivity].
  - rewrite E.
    assert (F : forall q,
               (if List.length (snd q) <? S n
                then star_loop (matches m r) g n q else []) =
               (if List.length (snd q) <? S n
                then matches m (Star g r) q else [])).
    { intros q. case_ltb; [|reflexivity].
      change (matches m (Star g r) q)
        with (star_loop (matches m r) g (List.length (snd q)) q).
      apply star_loop_fuel; lia. }
    rewrite (flat_map_ext _ _ F). reflexivity.
Qed.

Lemma star_loop_sound body g r :
  (forall p q, In q (body p) -> exists w, snd p = w ++ snd q /\ lang r w) ->
  forall n p q, In q (star_loop body g n p) ->
                exists w, snd p = w ++ snd q /\ lang (Star g r) w.
Proof.
  intros Hb. induction n as [|n IH]; intros p q Hq; cbn [star_loop] in Hq.
  - destruct Hq as [<-|[]]. exists []. split; [reflexivity | constructor].
  - assert (Hq' : q = p \/
                  In q (flat_map
                          (fun q0 => if List.length (snd q0) <? List.length (snd p)
                                     then star_loop body g n q0 else [])
                          (body p))).
    { destruct g.
      - apply in_app_or in Hq. destruct Hq as [H|[H|[]]]; auto.
      - destruct Hq as [H|H]; auto. }
    destruct Hq' as [->|Hq'].
    + exists []. split; [reflexivity | constructor].
    + apply in_flat_map in Hq'. destruct Hq' as (q1 & H1 & H2).
      destruct (Nat.ltb_spec (List.length (snd q1)) (List.length (snd p)));
        [|destruct H2].
      destruct (Hb _ _ H1) as (w1 & E1 & L1).
      destruct (IH _ _ H2) as (w2 & E2 & L2).
      exists (w1 ++ w2). split.
      * rewrite E1, E2, app_assoc. reflexivity.
      * apply L_star_cons; auto. intros ->. simpl in E1. rewrite E1 in *. lia.
Qed.

(** Soundness: what the matcher consumes is a word of the pattern. *)
Lemma matches_sound r : forall p q,
  In q (matches m r p) -> exists w, snd p = w ++ snd q /\ lang r w.
Proof.
  induction r as [| |f|r1 IH1 r2 IH2|r1 IH1 r2 IH2|g r IH]; intros p q Hq.
  - destruct Hq as [<-|[]]. exists []. split; [reflexivity|constructor].
  - simpl in Hq. destruct (fst p); [|destruct Hq].
    destruct Hq as [<-|[]]. exists []. split; [reflexivity|constructor].
  - simpl in Hq. destruct (snd p) as [|c s] eqn:E; [destruct Hq|].
    destruct (f c) eqn:Ef; [|destruct Hq]. destruct Hq as [<-|[]].
    exists [c]. split; [reflexivity | constructor; exact Ef].
  - simpl in Hq. apply in_flat_map in Hq. destruct Hq as (q1 & H1 & H2).
    destruct (IH1 _ _ H1) as (w1 & E1 & L1).
    destruct (IH2 _ _ H2) as (w2 & E2 & L2).
    exists (w1 ++ w2). split; [|constructor; assumption].
    rewrite E1, E2, app_assoc. reflexivity.
  - simpl in Hq. apply in_app_or in Hq. destruct Hq as [H|H].
    + destruct (IH1 _ _ H) as (w & E & L). exists w. split; [exact E|].
      apply L_alt_l; exact L.
    + destruct (IH2 _ _ H) as (w & E & L). exists w. split; [exact E|].
      apply L_alt_r; exact L.
  - simpl in Hq. eapply star_loop_sound; [exact IH | exact Hq].
Qed.

Lemma matches_length r p q :
  In q (matches m r p) -> List.length (snd q) <= List.length (snd p).
Proof.
  intros H. destruct (@matches_sound r p q H) as (w & E & _).
  rewrite E, length_app. lia.
Qed.

(** Completeness, for patterns without anchors: every word of the pattern
    at the start of the text is found. *)
Lemma matches_complete r w :
  lang r w -> anchor_free r = true ->
  forall b rest, exists b', In (b', rest) (matches m r (b, w ++ rest)).
Proof.
  induction 1 as [| |f c Hf|r1 r2 w1 w2 _ IH1 _ IH2|r1 r2 w _ IH|r1 r2 w _ IH
                  |g r|g r w1 w2 _ IH1 Hne _ IH2]; simpl anchor_free; intros Ha b rest.
  - exists b. left. reflexivity.
  - discriminate.
  - exists (fst (after m c rest)). simpl. rewrite Hf. left. reflexivity.
  - apply andb_true_iff in Ha. destruct Ha as [Ha1 Ha2].
    destruct (IH1 Ha1 b (w2 ++ rest)) as [b1 H1].
    destruct (IH2 Ha2 b1 rest) as [b2 H2].
    exists b2. simpl. rewrite <- app_assoc. apply in_flat_map. eauto.
  - apply andb_true_iff in Ha. destruct Ha as [Ha1 Ha2].
    destruct (IH Ha1 b rest) as [b1 H1]. exists b1. simpl. apply in_or_app. auto.
  - apply andb_true_iff in Ha. destruct Ha as [Ha1 Ha2].
    destruct (IH Ha2 b rest) as [b1 H1]. exists b1. simpl. apply in_or_app. auto.
  - exists b. rewrite matches_star. simpl. destruct g; [apply in_or_app|]; simpl; auto.
  - destruct (IH1 Ha b (w2 ++ rest)) as [b1 H1].
    destruct (IH2 Ha b1 rest) as [b2 H2].
    exists b2. rewrite matches_star.
    assert (In (b2, rest)
              (flat_map
                 (fun q => if List.length (snd q) <?
                              List.length (snd (b, (w1 ++ w2) ++ rest))
                           then matches m (Star g r) q else [])
                 (matches m r (b, (w1 ++ w2) ++ rest)))).
    { apply in_flat_map. exists (b1, w2 ++ rest). split.
      - rewrite <- app_assoc. exact H1.
      - simpl snd.
        case_ltb; [exact H2|].
        rewrite !length_app in *. destruct w1; [congruence | simpl in *; lia]. }
    cbv zeta. destruct g; [apply in_or_app|right]; auto.
Qed.

End EngineFacts.

(** *** Text after the end of every match

    What a pattern matches in [s ++ tail] without reaching into [tail] is
    what it matches in [s], in the same order of priority. *)

Section Tail.

Variable m : bool.
Variable tail : str.

Lemma filter_flat_map {A B} (P : B -> bool) (f : A -> list B) l :
  filter P (flat_map f l) = flat_map (fun x => filter P (f x)) l.
Proof.
  induction l as [|a l IH]; simpl; [reflexivity|].
  rewrite filter_app, IH. reflexivity.
Qed.

Lemma flat_map_filter {A B} (P : A -> bool) (g : A -> list B) l :
  (forall x, In x l -> P x = false -> g x = []) ->
  flat_map g l = flat_map g (filter P l).
Proof.
  induction l as [|a l IH]; simpl; intros H; [reflexivity|].
  destruct (P a) eqn:E; simpl.
  - rewrite IH by auto. reflexivity.
  - rewrite (H a) by auto. simpl. apply IH. auto.
Qed.

Lemma flat_map_after_map {A B C} (g : B -> list C) (h : A -> B) l :
  flat_map g (map h l) = flat_map (fun x => g (h x)) l.
Proof. induction l as [|a l IH]; simpl; [reflexivity | rewrite IH; reflexivity]. Qed.

Lemma map_after_flat_map {A B C} (h : B -> C) (f : A -> list B) l :
  map h (flat_map f l) = flat_map (fun x => map h (f x)) l.
Proof.
  induction l as [|a l IH]; simpl; [reflexivity|].
  rewrite map_app, IH. reflexivity.
Qed.

Lemma filter_none {A} (P : A -> bool) l :
  (forall x, In x l -> P x = false) -> filter P l = [].
Proof.
  induction l as [|a l IH]; simpl; intros H; [reflexivity|].
  rewrite (H a) by auto. apply IH. auto.
Qed.

Lemma keep_extend q : keep tail (extend tail q) = true.
Proof. unfold keep, extend; simpl. apply Nat.leb_le. rewrite length_app. lia. Qed.

Lemma keep_below p l :
  keep tail p = false ->
  (forall q, In q l -> List.length (snd q) <= List.length (snd p)) ->
  filter (keep tail) l = [].
Proof.
  unfold keep. intros Hp Hl. apply filter_none. intros q Hq.
  apply Nat.leb_gt. apply Nat.leb_gt in Hp. specialize (Hl q Hq). lia.
Qed.

Lemma star_loop_length r g n : forall p q,
  In q (star_loop (matches m r) g n p) ->
  List.length (snd q) <= List.length (snd p).
Proof.
  intros p q H.
  assert (Hs : exists w, snd p = w ++ snd q /\ lang (Star g r) w).
  { eapply star_loop_sound; [|exact H]. intros p0 q0. apply matches_sound. }
  destruct Hs as (w & E & _). rewrite E, length_app. lia.
Qed.

Lemma star_loop_tail r g :
  (forall b s, filter (keep tail) (matches m r (b, s ++ tail)) =
               map (extend tail) (matches m r (b, s))) ->
  forall n b s,
    List.length (s ++ tail) <= n ->
    filter (keep tail) (star_loop (matches m r) g n (b, s ++ tail)) =
    map (extend tail) (star_loop (matches m r) g n (b, s)).
Proof.
  intros IHr. induction n as [|n IH]; intros b s Hn.
  - simpl. change (keep tail (b, s ++ tail)) with (keep tail (extend tail (b, s))).
    rewrite keep_extend. reflexivity.
  - cbn [star_loop].
    set (FL := fun q : pos =>
                 if List.length (snd q) <? List.length (snd (b, s ++ tail))
                 then star_loop (matches m r) g n q else []).
    set (FR := fun q : pos =>
                 if List.length (snd q) <? List.length (snd (b, s))
                 then star_loop (matches m r) g n q else []).
    assert (E : filter (keep tail) (flat_map FL (matches m r (b, s ++ tail))) =
                map (extend tail) (flat_map FR (matches m r (b, s)))).
    { rewrite filter_flat_map.
      rewrite (flat_map_filter (keep tail)).
      - rewrite IHr, flat_map_after_map, map_after_flat_map.
        apply flat_map_ext. intros q0. unfold FL, FR, extend. simpl snd. simpl fst.
        rewrite !length_app.
        case_ltb.
        + case_ltb; [|lia].
          rewrite IH by (rewrite length_app in *; lia).
          destruct q0; reflexivity.
        + case_ltb; [lia|].
          reflexivity.
      - intros q _ Hk. unfold FL.
        destruct (List.length (snd q) <? List.length (snd (b, s ++ tail)));
          [|reflexivity].
        eapply keep_below; [exact Hk|]. intros q'. apply star_loop_length. }
    change (b, s ++ tail) with (extend tail (b, s)) at 2 3.
    destruct g.
    + rewrite filter_app, map_app, E. simpl. rewrite keep_extend. reflexivity.
    + simpl. rewrite keep_extend. f_equal. exact E.
Qed.

Lemma matches_tail r : forall b s,
  filter (keep tail) (matches m r (b, s ++ tail)) =
  map (extend tail) (matches m r (b, s)).
Proof.
  induction r as [| |f|r1 IH1 r2 IH2|r1 IH1 r2 IH2|g r IH]; intros b s.
  - simpl. change (keep tail (b, s ++ tail)) with (keep tail (extend tail (b, s))).
    rewrite keep_extend. reflexivity.
  - simpl. destruct b; simpl; [|reflexivity].
    change (keep tail (true, s ++ tail)) with (keep tail (extend tail (true, s))).
    rewrite keep_extend. reflexivity.
  - destruct s as [|c s]; simpl.
    + destruct tail as [|c t]; [reflexivity|]. destruct (f c); [|reflexivity].
      cbn [filter map].
      assert (E : keep (c :: t) (after m c t) = false).
      { unfold keep, after. cbn [snd List.length]. apply Nat.leb_gt. lia. }
      rewrite E. reflexivity.
    + destruct (f c); [|reflexivity]. simpl.
      change (keep tail (after m c (s ++ tail)))
        with (keep tail (extend tail (after m c s))).
      rewrite keep_extend. reflexivity.
  - simpl. rewrite filter_flat_map. rewrite (flat_map_filter (keep tail)).
    + rewrite IH1, flat_map_after_map, map_after_flat_map.
      apply flat_map_ext. intros [b0 s0]. apply IH2.
    + intros q _ Hk. eapply keep_below; [exact Hk|]. intros q'. apply matches_length.
  - simpl. rewrite filter_app, map_app, IH1, IH2. reflexivity.
  - cbn [matches]. rewrite (@star_loop_tail r g IH) by reflexivity.
    f_equal. apply star_loop_fuel; simpl; [rewrite length_app; lia | lia].
Qed.

End Tail.

(** *** The words of the table pattern *)

Lemma lang_cls_inv f w : lang (Cls f) w -> exists c, w = [c] /\ f c = true.
Proof. intros H. inversion H; subst. eauto. Qed.

Lemma lang_chr_inv c w : lang (Chr c) w -> w = [c].
Proof.
  intros H. apply lang_cls_inv in H. destruct H as (d & -> & E).
  apply Ascii.eqb_eq in E. subst. reflexivity.
Qed.

Lemma lang_chr c : lang (Chr c) [c].
Proof. constructor. apply Ascii.eqb_refl. Qed.

Lemma lang_cat_inv r1 r2 w :
  lang (Cat r1 r2) w -> exists w1 w2, w = w1 ++ w2 /\ lang r1 w1 /\ lang r2 w2.
Proof. intros H. inversion H; subst. eauto. Qed.

Lemma lang_star_inv g r w :
  lang (Star g r) w -> exists ws, w = List.concat ws /\ Forall (lang r) ws.
Proof.
  intros H. remember (Star g r) as r0 eqn:E.
  induction H as [| | | | | | |g' r' w1 w2 H1 _ Hne _ IH]; try discriminate.
  - exists []. auto.
  - inversion E; subst. destruct (IH eq_refl) as (ws & -> & Hws).
    exists (w1 :: ws). auto.
Qed.

Lemma lang_star g r ws :
  Forall (lang r) ws -> Forall (fun w => w <> []) ws -> lang (Star g r) (List.concat ws).
Proof.
  induction 1 as [|w ws Hw _ IH]; intros Hne; simpl; [constructor|].
  inversion Hne; subst. apply L_star_cons; auto.
Qed.

Lemma lang_star_cls f g w : lang (Star g (Cls f)) w <-> forallb f w = true.
Proof.
  split.
  - intros H. apply lang_star_inv in H. destruct H as (ws & -> & Hws).
    induction Hws as [|w ws Hw _ IH]; [reflexivity|]. simpl.
    apply lang_cls_inv in Hw. destruct Hw as (c & -> & Hc). simpl.
    rewrite Hc, IH. reflexivity.
  - induction w as [|c w IH]; simpl; intros H; [constructor|].
    apply andb_true_iff in H. destruct H as [Hc Hw].
    change (c :: w) with ([c] ++ w). apply L_star_cons; auto.
    + constructor; exact Hc.
    + discriminate.
Qed.

Lemma lang_plus_cls f w :
  lang (Plus (Cls f)) w <-> w <> [] /\ forallb f w = true.
Proof.
  unfold Plus. split.
  - intros H. apply lang_cat_inv in H. destruct H as (w1 & w2 & -> & H1 & H2).
    apply lang_cls_inv in H1. destruct H1 as (c & -> & Hc).
    apply lang_star_cls in H2. simpl. rewrite Hc, H2. split; [discriminate|reflexivity].
  - intros [Hne H]. destruct w as [|c w]; [congruence|]. simpl in H.
    apply andb_true_iff in H. destruct H as [Hc Hw].
    change (c :: w) with ([c] ++ w). constructor.
    + constructor; exact Hc.
    + apply lang_star_cls; exact Hw.
Qed.

Lemma lang_table_row w : lang table_row w <-> data_row w.
Proof.
  unfold table_row. split.
  - intros H.
    apply lang_cat_inv in H. destruct H as (w1 & u1 & -> & H1 & H).
    apply lang_cat_inv in H. destruct H as (w2 & u2 & -> & H2 & H).
    apply lang_cat_inv in H. destruct H as (w3 & w4 & -> & H3 & H4).
    apply lang_chr_inv in H1, H3. subst.
    apply lang_star_cls in H2. apply lang_cls_inv in H4.
    destruct H4 as (n & -> & Hn).
    exists ("|" :: w2 ++ ["|"]), n. split; [|split; [exists w2; auto | exact Hn]].
    simpl. rewrite <- app_assoc. reflexivity.
  - intros (l & n & -> & (x & -> & Hx) & Hn).
    replace (("|" :: x ++ ["|"]) ++ [n]) with (["|"] ++ x ++ ["|"] ++ [n])
      by (simpl; rewrite <- app_assoc; reflexivity).
    repeat constructor; try apply lang_chr; try exact Hn.
    apply lang_star_cls; exact Hx.
Qed.

Lemma data_row_nonempty w : data_row w -> w <> [].
Proof. intros (l & n & -> & _ & _). destruct l; discriminate. Qed.

Lemma lang_table_pattern w : lang table_pattern w <-> table_block w.
Proof.
  unfold table_pattern. split.
  - intros H.
    apply lang_cat_inv in H. destruct H as (w1 & u1 & -> & H1 & H).
    apply lang_cat_inv in H. destruct H as (w2 & u2 & -> & H2 & H).
    apply lang_cat_inv in H. destruct H as (w3 & u3 & -> & H3 & H).
    apply lang_cat_inv in H. destruct H as (w4 & u4 & -> & H4 & H).
    apply lang_cat_inv in H. destruct H as (w5 & u5 & -> & H5 & H).
    apply lang_cat_inv in H. destruct H as (w6 & w7 & -> & H6 & H7).
    apply lang_chr_inv in H1, H3. subst.
    apply lang_star_cls in H2.
    apply lang_cls_inv in H4, H6.
    destruct H4 as (n1 & -> & Hn1). destruct H6 as (n2 & -> & Hn2).
    apply lang_plus_cls in H5. destruct H5 as [Hne Hsep].
    unfold Plus in H7. apply lang_cat_inv in H7.
    destruct H7 as (r1 & u & -> & Hr1 & Hu).
    apply lang_star_inv in Hu. destruct Hu as (rs & -> & Hrs).
    exists ("|" :: w2 ++ ["|"]), n1, w5, n2, (r1 :: rs).
    repeat split; auto.
    + simpl. rewrite <- !app_assoc. reflexivity.
    + exists w2. auto.
    + discriminate.
    + constructor; [apply lang_table_row; exact Hr1|].
      eapply Forall_impl; [|exact Hrs]. intros a. apply lang_table_row.
  - intros (hdr & n1 & sep & n2 & rows & -> & (x & -> & Hx) & Hn1 & Hne & Hsep
            & Hn2 & Hrows & Hall).
    replace (("|" :: x ++ ["|"]) ++ n1 :: sep ++ n2 :: List.concat rows)
      with (["|"] ++ x ++ ["|"] ++ [n1] ++ sep ++ [n2] ++ List.concat rows)
      by (simpl; rewrite <- app_assoc; reflexivity).
    destruct rows as [|r1 rs]; [congruence|]. inversion Hall; subst.
    repeat apply L_cat; try apply lang_chr.
    + apply lang_star_cls; exact Hx.
    + constructor; exact Hn1.
    + apply lang_plus_cls. auto.
    + constructor; exact Hn2.
    + apply lang_table_row; assumption.
    + apply lang_star.
      * eapply Forall_impl; [|eassumption]. intros a. apply lang_table_row.
      * eapply Forall_impl; [|eassumption]. intros a. apply data_row_nonempty.
Qed.

(** A table block holds three line-break characters or more. *)
Lemma table_block_newlines w :
  table_block w -> 3 <= List.length (filter newline w).
Proof.
  intros (hdr & n1 & sep & n2 & rows & -> & _ & Hn1 & _ & _ & Hn2 & Hrows & Hall).
  destruct rows as [|r1 rs]; [congruence|]. inversion Hall as [|? ? Hr _]; subst.
  destruct Hr as (l & n & -> & _ & Hn).
  rewrite filter_app. simpl. rewrite Hn1. rewrite filter_app. simpl. rewrite Hn2.
  rewrite !filter_app. simpl. rewrite Hn.
  repeat (rewrite !length_app; cbn [List.length]). lia.
Qed.

(** A table block ends with a line-break character. *)
Lemma table_block_last w :
  table_block w -> exists w' n, w = w' ++ [n] /\ newline n = true.
Proof.
  intros (hdr & n1 & sep & n2 & rows & -> & _ & _ & _ & _ & _ & Hrows & Hall).
  destruct (exists_last Hrows) as (rs & r & ->).
  apply Forall_app in Hall. destruct Hall as [_ Hr]. inversion Hr as [|? ? Hr' _]; subst.
  destruct Hr' as (l & n & -> & _ & Hn).
  exists (hdr ++ n1 :: sep ++ n2 :: List.concat rs ++ l), n. split; [|exact Hn].
  rewrite concat_app. simpl. rewrite app_nil_r.
  rewrite <- !app_assoc. simpl. rewrite <- !app_assoc. simpl.
  rewrite <- !app_assoc. reflexivity.
Qed.

(** *** [finditer] *)

Lemma firstn_length_app {A} (w rest : list A) :
  firstn (List.length w) (w ++ rest) = w.
Proof. induction w as [|a w IH]; simpl; [reflexivity | rewrite IH; reflexivity]. Qed.

Lemma matched_app (w rest : str) : matched (w ++ rest) rest = w.
Proof.
  unfold matched. rewrite length_app.
  replace (List.length w + List.length rest - List.length rest)
    with (List.length w) by lia.
  apply firstn_length_app.
Qed.

(** Every match reported by [finditer] is a piece of the text and a word
    of the pattern. *)
Lemma finditer_from_sound m r : forall s k b block,
  In block (finditer_from m r k b s) ->
  exists pre post, s = pre ++ block ++ post /\ lang r block.
Proof.
  induction s as [|c s IH]; intros k b block Hin.
  - cbn [finditer_from] in Hin. destruct k; [|destruct Hin].
    destruct (matches m r (b, [])) as [|q qs] eqn:E; [destruct Hin|].
    destruct Hin as [<-|[]].
    assert (Hq : In q (matches m r (b, []))) by (rewrite E; left; reflexivity).
    apply matches_sound in Hq. destruct Hq as (w & Ew & Lw). simpl in Ew.
    symmetry in Ew. apply app_eq_nil in Ew. destruct Ew as [-> _].
    exists [], []. auto.
  - cbn [finditer_from] in Hin. destruct k as [|k].
    + destruct (matches m r (b, c :: s)) as [|q qs] eqn:E.
      * destruct (IH _ _ _ Hin) as (pre & post & -> & L).
        exists (c :: pre), post. auto.
      * assert (Hq : In q (matches m r (b, c :: s))) by (rewrite E; left; reflexivity).
        apply matches_sound in Hq. destruct Hq as (w & Ew & Lw). simpl snd in Ew.
        destruct Hin as [<-|Hin].
        -- exists [], (snd q). rewrite Ew, matched_app. auto.
        -- destruct (IH _ _ _ Hin) as (pre & post & -> & L).
           exists (c :: pre), post. auto.
    + destruct (IH _ _ _ Hin) as (pre & post & -> & L).
      exists (c :: pre), post. auto.
Qed.

(** ** The table extractor *)

Lemma for_each_match_spec ms : forall tables ui,
  for_each_match ms tables ui = (inr (tables ++ parsed ms), ui ++ reported ms).
Proof.
  induction ms as [|t ms IH]; intros tables ui.
  - simpl. unfold ret. rewrite !app_nil_r. reflexivity.
  - cbn [for_each_match parsed reported flat_map].
    unfold bind at 1. unfold try_except, bind, lift, ret, raise, st_error.
    destruct (parse_table t) as [e|df].
    + rewrite IH. unfold parsed, reported. simpl. rewrite <- app_assoc. reflexivity.
    + rewrite IH. unfold parsed, reported. simpl. rewrite <- app_assoc. reflexivity.
Qed.

Lemma extract_tables_spec text ui :
  extract_tables text ui =
  (inr (parsed (finditer true table_pattern text)),
   ui ++ reported (finditer true table_pattern text)).
Proof. unfold extract_tables. rewrite for_each_match_spec. reflexivity. Qed.

Lemma finditer_table_block text block :
  In block (finditer true table_pattern text) ->
  table_block block /\ exists pre post, text = pre ++ block ++ post.
Proof.
  intros H. apply finditer_from_sound in H. destruct H as (pre & post & E & L).
  split; [apply lang_table_pattern; exact L | eauto].
Qed.

Lemma filter_length_app {A} (f : A -> bool) l1 l2 :
  List.length (filter f (l1 ++ l2)) =
  List.length (filter f l1) + List.length (filter f l2).
Proof. rewrite filter_app, length_app. reflexivity. Qed.

Lemma no_block_no_match text :
  (forall pre block post, text = pre ++ block ++ post -> ~ table_block block) ->
  finditer true table_pattern text = [].
Proof.
  intros H. destruct (finditer true table_pattern text) as [|blk l] eqn:E;
    [reflexivity|].
  assert (Hin : In blk (finditer true table_pattern text)) by (rewrite E; left; auto).
  apply finditer_table_block in Hin. destruct Hin as (Hb & pre & post & Et).
  exfalso. exact (H _ _ _ Et Hb).
Qed.

Lemma extract_tables_no_block text ui :
  (forall pre block post, text = pre ++ block ++ post -> ~ table_block block) ->
  extract_tables text ui = (inr [], ui).
Proof.
  intros H. rewrite extract_tables_spec, no_block_no_match by exact H.
  simpl. rewrite app_nil_r. reflexivity.
Qed.

Lemma extract_tables_few_newlines text ui :
  List.length (filter newline text) < 3 ->
  extract_tables text ui = (inr [], ui).
Proof.
  intros Hlt. apply extract_tables_no_block. intros pre block post -> Hb.
  apply table_block_newlines in Hb.
  rewrite !filter_length_app in Hlt. lia.
Qed.

(** C3. [extract_tables] returns a value on every text and from every
    display state, never an exception: the value is the list of the frames
    of the matched blocks that convert, in order; each block that does not
    convert is left out, its exception is shown through [st.error], and the
    loop goes on with the next block.  On a text of two blocks whose first
    has a row wider than the header, the result is the second table and one
    message. *)
Theorem extract_tables_never_raises :
  (forall text ui,
      extract_tables text ui =
      (inr (parsed (finditer true table_pattern text)),
       ui ++ reported (finditer true table_pattern text))) /\
  (forall blocks,
      List.length (parsed blocks) + List.length (reported blocks) =
      List.length blocks) /\
  extract_tables (py "|a|\n|-|\n|1|2|\n\n|b|\n|-|\n|3|\n") [] =
  (inr [mkFrame [py "b"] [[Some (py "3")]]], [ValueError 1 2]).
Proof.
  split; [exact extract_tables_spec|]. split.
  - induction blocks as [|t l IH]; [reflexivity|].
    unfold parsed, reported in *. simpl. rewrite !length_app.
    destruct (parse_table t); simpl; lia.
  - vm_compute. reflexivity.
Qed.

(** C4. Every table returned comes from a piece of the text made of a pipe
    line (the header), a line break, a non-empty run of pipes, hyphens,
    colons and whitespace, a line break, and one or more pipe lines each
    ended by a line break.  A text with no such piece, and in particular a
    text with fewer than three line-break characters, gives no table; so do
    a lone header, a header followed by data lines without a separator, and
    a header and a separator without a data line. *)
Theorem tables_only_from_blocks :
  (forall text ui ts ui' df,
      extract_tables text ui = (inr ts, ui') -> In df ts ->
      exists pre block post,
        text = pre ++ block ++ post /\ table_block block /\
        parse_table block = inr df) /\
  (forall text ui,
      (forall pre block post, text = pre ++ block ++ post -> ~ table_block block) ->
      extract_tables text ui = (inr [], ui)) /\
  (forall text ui,
      List.length (filter newline text) < 3 ->
      extract_tables text ui = (inr [], ui)) /\
  extract_tables (py "|a|b|\n") [] = (inr [], []) /\
  extract_tables (py "|a|b|\n|1|2|\n|3|4|\n") [] = (inr [], []) /\
  extract_tables (py "|a|b|\n|-|-|\n") [] = (inr [], []).
Proof.
  split; [|split; [exact extract_tables_no_block | split]].
  - intros text ui ts ui' df E Hin. rewrite extract_tables_spec in E.
    inversion E; subst. unfold parsed in Hin. apply in_flat_map in Hin.
    destruct Hin as (block & Hb & Hdf).
    apply finditer_table_block in Hb. destruct Hb as (Hb & pre & post & Et).
    exists pre, block, post. split; [exact Et|]. split; [exact Hb|].
    destruct (parse_table block) as [e|df']; [destruct Hdf|].
    destruct Hdf as [->|[]]. reflexivity.
  - exact extract_tables_few_newlines.
  - repeat split; vm_compute; reflexivity.
Qed.

Lemma tables_only_from_blocks_witness :
  (exists pre block post,
      py "x |a|\n|-|\n|1|\n" = pre ++ block ++ post /\ table_block block /\
      parse_table block = inr (mkFrame [py "a"] [[Some (py "1")]])) /\
  extract_tables (py "no table") [] = (inr [], []) /\
  extract_tables (py "|a|b|\n|-|-|\n|1|2|") [] = (inr [], []).
Proof.
  split; [|split].
  - apply (proj1 tables_only_from_blocks (py "x |a|\n|-|\n|1|\n") []
             [mkFrame [py "a"] [[Some (py "1")]]] []).
    + vm_compute. reflexivity.
    + left. reflexivity.
  - apply (proj1 (proj2 tables_only_from_blocks)).
    intros pre block post E Hb. apply table_block_newlines in Hb.
    assert (E0 : List.length (filter newline (py "no table")) = 0)
      by (vm_compute; reflexivity).
    rewrite E in E0. rewrite !filter_length_app in E0. lia.
  - apply (proj1 (proj2 (proj2 tables_only_from_blocks))).
    apply Nat.ltb_lt. vm_compute. reflexivity.
Defined.

(** *** Text before the first pipe, text after the last line break *)

Lemma matches_cat_cls m f r2 b s :
  matches m (Cat (Cls f) r2) (b, s) =
  match s with
  | [] => []
  | c :: s' => if f c then matches m r2 (after m c s') else []
  end.
Proof.
  cbn [matches snd]. destruct s as [|c s']; [reflexivity|].
  destruct (f c); [|reflexivity]. cbn [flat_map]. apply app_nil_r.
Qed.

(** The table pattern has no anchor: where [^] holds does not matter. *)
Lemma table_matches_flag b1 b2 s :
  matches true table_pattern (b1, s) = matches true table_pattern (b2, s).
Proof. unfold table_pattern, Chr. rewrite !matches_cat_cls. reflexivity. Qed.

Lemma table_matches_nil b : matches true table_pattern (b, []) = [].
Proof. unfold table_pattern, Chr. rewrite matches_cat_cls. reflexivity. Qed.

Lemma table_matches_not_pipe b c s :
  (c =? "|")%char = false -> matches true table_pattern (b, c :: s) = [].
Proof.
  intros H. unfold table_pattern, Chr. rewrite matches_cat_cls. rewrite H.
  reflexivity.
Qed.

Lemma finditer_from_flag k b1 b2 s :
  finditer_from true table_pattern k b1 s =
  finditer_from true table_pattern k b2 s.
Proof.
  destruct s as [|c s]; cbn [finditer_from].
  - rewrite !table_matches_nil. reflexivity.
  - rewrite (table_matches_flag b1 b2). reflexivity.
Qed.

(** Text without a pipe in front of the rest is skipped. *)
Lemma finditer_from_prefix pre t : no_pipe pre = true ->
  forall b b',
    finditer_from true table_pattern 0 b (pre ++ t) =
    finditer_from true table_pattern 0 b' t.
Proof.
  induction pre as [|c pre IH]; intros H b b'; [apply finditer_from_flag|].
  unfold no_pipe in H. simpl in H. apply andb_true_iff in H. destruct H as [Hc H].
  apply negb_true_iff in Hc.
  cbn [app finditer_from]. rewrite table_matches_not_pipe by exact Hc.
  apply IH. exact H.
Qed.

Lemma finditer_prefix pre t :
  no_pipe pre = true ->
  finditer true table_pattern (pre ++ t) = finditer true table_pattern t.
Proof. intros H. unfold finditer. apply finditer_from_prefix. exact H. Qed.

Lemma filter_all {A} (P : A -> bool) l :
  (forall x, In x l -> P x = true) -> filter P l = l.
Proof.
  induction l as [|a l IH]; simpl; intros H; [reflexivity|].
  rewrite (H a) by auto. rewrite IH by auto. reflexivity.
Qed.

Lemma no_newline_In tail n :
  no_newline tail = true -> In n tail -> newline n = false.
Proof.
  unfold no_newline. intros H Hin. rewrite forallb_forall in H.
  apply negb_true_iff. auto.
Qed.

(** No match of the table pattern ends inside a piece of text that has no
    line-break character. *)
Lemma table_matches_keep tail b s q :
  no_newline tail = true ->
  In q (matches true table_pattern (b, s ++ tail)) -> keep tail q = true.
Proof.
  intros Ht Hq. unfold keep. apply Nat.leb_le.
  destruct (Nat.le_gt_cases (List.length tail) (List.length (snd q))) as [|Hlt];
    [assumption|exfalso].
  apply matches_sound in Hq. destruct Hq as (w & Ew & Lw). simpl snd in Ew.
  apply lang_table_pattern, table_block_last in Lw.
  destruct Lw as (w' & n & -> & Hn).
  apply app_eq_app in Ew. destruct Ew as (l & [[E1 E2]|[E1 E2]]).
  - rewrite E2, length_app in Hlt. lia.
  - destruct (exists_last (l := l)) as (l' & x & ->).
    { intros ->. simpl in E2. rewrite E2 in Hlt. lia. }
    rewrite app_assoc in E1. apply app_inj_tail in E1. destruct E1 as [_ ->].
    assert (Hx : newline x = false).
    { apply (@no_newline_In tail x Ht). rewrite E2. apply in_or_app. left.
      apply in_or_app. right. left. reflexivity. }
    congruence.
Qed.

Lemma table_matches_tail tail b s :
  no_newline tail = true ->
  matches true table_pattern (b, s ++ tail) =
  map (extend tail) (matches true table_pattern (b, s)).
Proof.
  intros Ht. rewrite <- matches_tail. symmetry. apply filter_all.
  intros q Hq. eapply table_matches_keep; eassumption.
Qed.

Lemma finditer_from_no_newline tail : no_newline tail = true ->
  forall k b, finditer_from true table_pattern k b tail = [].
Proof.
  induction tail as [|c t IH]; intros H k b.
  - cbn [finditer_from]. rewrite table_matches_nil. destruct k; reflexivity.
  - assert (Ht : no_newline t = true).
    { unfold no_newline in *. simpl in H. apply andb_true_iff in H. tauto. }
    cbn [finditer_from]. destruct k as [|k]; [|apply IH; exact Ht].
    change (c :: t) with ([] ++ c :: t) at 1.
    rewrite table_matches_tail by exact H. rewrite table_matches_nil.
    apply IH; exact Ht.
Qed.

(** Text without a line break after the rest adds no match and changes
    none. *)
Lemma finditer_from_tail tail : no_newline tail = true ->
  forall s k b,
    finditer_from true table_pattern k b (s ++ tail) =
    finditer_from true table_pattern k b s.
Proof.
  intros Ht. induction s as [|c s IH]; intros k b.
  - rewrite finditer_from_no_newline by exact Ht.
    cbn [app finditer_from]. rewrite table_matches_nil. destruct k; reflexivity.
  - cbn [app finditer_from]. destruct k as [|k]; [|apply IH].
    change (c :: s ++ tail) with ((c :: s) ++ tail).
    rewrite table_matches_tail by exact Ht.
    destruct (matches true table_pattern (b, c :: s)) as [|q qs] eqn:E;
      cbn [map]; [apply IH|].
    assert (Hq : In q (matches true table_pattern (b, c :: s)))
      by (rewrite E; left; reflexivity).
    apply matches_sound in Hq. destruct Hq as (w & Ew & _). simpl snd in Ew.
    unfold extend. cbn [snd]. rewrite Ew, <- app_assoc, !matched_app, IH.
    reflexivity.
Qed.

Lemma extract_tables_tail text tail ui :
  no_newline tail = true ->
  extract_tables (text ++ tail) ui = extract_tables text ui.
Proof.
  intros H. rewrite !extract_tables_spec. unfold finditer.
  rewrite finditer_from_tail by exact H. reflexivity.
Qed.

Lemma extract_tables_prefix pre text ui :
  no_pipe pre = true ->
  extract_tables (pre ++ text) ui = extract_tables text ui.
Proof.
  intros H. rewrite !extract_tables_spec, finditer_prefix by exact H. reflexivity.
Qed.

Lemma no_newline_filter s : no_newline s = true -> filter newline s = [].
Proof.
  intros H. apply filter_none. intros x Hx. eapply no_newline_In; eassumption.
Qed.

Lemma no_newline_app s t :
  no_newline (s ++ t) = no_newline s && no_newline t.
Proof. apply forallb_app. Qed.

(** C9 (amended).  Every matched block ends with a line-break character,
    [\n] or [\r].  Text after the last line-break character of the input
    does not count: the result is that of the input without it.  In
    particular a header, a separator and one data row that no line-break
    character ends give no table, and an unterminated last data row is not
    among the rows of its table. *)
Theorem unterminated_last_line_ignored :
  (forall text block,
      In block (finditer true table_pattern text) ->
      exists w n, block = w ++ [n] /\ newline n = true) /\
  (forall text tail ui,
      no_newline tail = true ->
      extract_tables (text ++ tail) ui = extract_tables text ui) /\
  (forall hdr n1 sep n2 row ui,
      no_newline hdr = true -> no_newline sep = true -> no_newline row = true ->
      extract_tables (hdr ++ n1 :: sep ++ n2 :: row) ui = (inr [], ui)) /\
  extract_tables (py "|a|b|\n|-|-|\n|1|2|") [] = (inr [], []) /\
  extract_tables (py "|a|b|\r\n|-|-|\r\n|1|2|") [] = (inr [], []) /\
  extract_tables (py "|a|b|\n|-|-|\n|1|2|\n|3|4|") [] =
  (inr [mkFrame [py "a"; py "b"] [[Some (py "1"); Some (py "2")]]], []).
Proof.
  split; [|split; [|split]].
  - intros text block H. apply finditer_table_block in H.
    apply table_block_last. tauto.
  - intros text tail ui H. apply extract_tables_tail; exact H.
  - intros hdr n1 sep n2 row ui Hh Hs Hr.
    replace (hdr ++ n1 :: sep ++ n2 :: row)
      with ((hdr ++ n1 :: sep ++ [n2]) ++ row)
      by (rewrite <- app_assoc; simpl; rewrite <- app_assoc; reflexivity).
    rewrite extract_tables_tail by exact Hr.
    apply extract_tables_few_newlines.
    rewrite filter_length_app. cbn [filter]. rewrite (no_newline_filter _ Hh).
    destruct (newline n1); cbn [List.length]; rewrite filter_length_app;
      rewrite (no_newline_filter _ Hs); cbn [filter List.length];
      destruct (newline n2); cbn [List.length]; lia.
  - repeat split; vm_compute; reflexivity.
Qed.

Lemma unterminated_last_line_ignored_witness :
  (exists w n, py "|a|\n|-|\n|1|\n" = w ++ [n] /\ newline n = true) /\
  extract_tables (py "|a|\n|-|\n|1|\n" ++ py "|2|") [] =
  extract_tables (py "|a|\n|-|\n|1|\n") [] /\
  extract_tables (py "|a|" ++ LF :: py "|-|" ++ CR :: py "|1|") [] = (inr [], []).
Proof.
  split; [|split].
  - apply (proj1 unterminated_last_line_ignored (py "x|a|\n|-|\n|1|\ny")).
    vm_compute. left. reflexivity.
  - apply (proj1 (proj2 unterminated_last_line_ignored)). vm_compute. reflexivity.
  - apply (proj1 (proj2 (proj2 unterminated_last_line_ignored))); vm_compute;
      reflexivity.
Defined.

(** C9, as stated, fails: the input below ends with neither [\n] nor
    [\r\n], its only data row is its last line, and a table is produced. *)
Lemma bare_CR_ends_a_row :
  last (py "|a|\n|-|\n|1|\r") LF <> LF /\
  extract_tables (py "|a|\n|-|\n|1|\r") [] =
  (inr [mkFrame [py "a"] [[Some (py "1")]]], []).
Proof. split; [vm_compute; discriminate | vm_compute; reflexivity]. Qed.

(** *** One header, one separator, one data row *)

Lemma finditer_from_skip_all s : forall b,
  finditer_from true table_pattern (List.length s) b s = [].
Proof.
  induction s as [|c s IH]; intros b; cbn [finditer_from List.length].
  - rewrite table_matches_nil. reflexivity.
  - apply IH.
Qed.

(** A match that starts at the head of the text and covers it is the only
    one. *)
Lemma finditer_whole s c s' :
  s = c :: s' ->
  (exists q qs, matches true table_pattern (true, s) = q :: qs /\ snd q = []) ->
  finditer true table_pattern s = [s].
Proof.
  intros -> (q & qs & E & Hq). unfold finditer. cbn [finditer_from].
  rewrite E, Hq.
  assert (Em : matched (c :: s') [] = c :: s').
  { rewrite <- (app_nil_r (c :: s')) at 1. apply matched_app. }
  rewrite Em. f_equal.
  replace (List.length (c :: s') - 1) with (List.length s')
    by (cbn [List.length]; lia).
  apply finditer_from_skip_all.
Qed.

Lemma strip_by_ends p c x d :
  p c = false -> p d = false -> strip_by p (c :: x ++ [d]) = c :: x ++ [d].
Proof.
  intros Hc Hd. unfold strip_by, rstrip_by, lstrip_by.
  cbn [dropwhile]. rewrite Hc.
  change (c :: x ++ [d]) with ((c :: x) ++ [d]).
  rewrite rev_app_distr. cbn [rev app dropwhile]. rewrite Hd.
  change (d :: rev x ++ [c]) with ([d] ++ rev (c :: x)).
  rewrite rev_app_distr, rev_involutive. reflexivity.
Qed.

Lemma strip_pipes x : strip ("|" :: x ++ ["|"]) = "|" :: x ++ ["|"].
Proof. apply strip_by_ends; reflexivity. Qed.

Lemma strip_two_cells x y :
  strip ("|" :: x ++ "|" :: y ++ ["|"]) = "|" :: x ++ "|" :: y ++ ["|"].
Proof.
  replace ("|" :: x ++ "|" :: y ++ ["|"]) with ("|" :: (x ++ "|" :: y) ++ ["|"])
    by (rewrite <- app_assoc; reflexivity).
  apply strip_pipes.
Qed.

Lemma no_pipe_In x : no_pipe x = true -> ~ In "|" x.
Proof.
  unfold no_pipe. intros H Hin. rewrite forallb_forall in H.
  specialize (H _ Hin). discriminate.
Qed.

Lemma no_newline_LF x : no_newline x = true -> ~ In LF x.
Proof.
  intros H Hin. apply (@no_newline_In x LF H) in Hin. discriminate.
Qed.

Lemma no_newline_dot x : no_newline x = true -> forallb dot x = true.
Proof.
  unfold no_newline. intros H. apply forallb_forall. intros c Hc.
  rewrite forallb_forall in H. specialize (H c Hc).
  unfold newline, dot in *. destruct (c =? LF)%char; [|reflexivity].
  rewrite orb_true_r in H. discriminate.
Qed.

(** The cells of [|x|y|]. *)
Lemma cells_two x y :
  no_pipe x = true -> no_pipe y = true ->
  cells ("|" :: x ++ "|" :: y ++ ["|"]) = [strip x; strip y].
Proof.
  intros Hx Hy. unfold cells.
  change ("|" :: x ++ "|" :: y ++ ["|"]) with ([] ++ "|" :: x ++ "|" :: y ++ ["|"]).
  rewrite split_app_sep by (simpl; tauto).
  rewrite split_app_sep by (apply no_pipe_In; exact Hx).
  change [ "|" ] with ("|" :: []).
  rewrite split_app_sep by (apply no_pipe_In; exact Hy).
  reflexivity.
Qed.

Section SimpleBlock.

Variables c1 c2 a b : str.
Hypothesis Hc1 : cell c1 = true.
Hypothesis Hc2 : cell c2 = true.
Hypothesis Ha : cell a = true.
Hypothesis Hb : cell b = true.

Local Abbreviation hdr := (pipe_row c1 c2).
Local Abbreviation row := (pipe_row a b).
Local Abbreviation block := (one_row_block c1 c2 a b).

Lemma cell_facts x :
  cell x = true -> no_pipe x = true /\ no_newline x = true.
Proof. apply andb_true_iff. Qed.

Lemma two_cells_no_newline x y :
  cell x = true -> cell y = true ->
  no_newline ("|" :: x ++ "|" :: y ++ ["|"]) = true.
Proof.
  intros Hx Hy. apply cell_facts in Hx, Hy. destruct Hx as [_ Hx], Hy as [_ Hy].
  change ("|" :: x ++ "|" :: y ++ ["|"]) with (["|"] ++ x ++ ["|"] ++ y ++ ["|"]).
  rewrite !no_newline_app, Hx, Hy. reflexivity.
Qed.

Lemma two_cells_pipe_line x y :
  cell x = true -> cell y = true ->
  pipe_line ("|" :: x ++ "|" :: y ++ ["|"]).
Proof.
  intros Hx Hy. exists (x ++ "|" :: y). split.
  - rewrite <- app_assoc. reflexivity.
  - apply no_newline_dot. apply cell_facts in Hx, Hy.
    change (x ++ "|" :: y) with (x ++ ["|"] ++ y).
    rewrite !no_newline_app. destruct Hx as [_ ->], Hy as [_ ->]. reflexivity.
Qed.

Lemma simple_block_is_block : table_block block.
Proof.
  exists hdr, LF, (py "|-|-|"), LF, [row ++ [LF]].
  repeat split; try reflexivity; try discriminate.
  - unfold block. simpl. rewrite app_nil_r. reflexivity.
  - apply two_cells_pipe_line; assumption.
  - constructor; [|constructor]. exists row, LF.
    repeat split. apply two_cells_pipe_line; assumption.
Qed.

Lemma simple_block_newlines : List.length (filter newline block) = 3.
Proof.
  unfold block, hdr, row. rewrite filter_length_app.
  rewrite (no_newline_filter _ (two_cells_no_newline _ _ Hc1 Hc2)).
  cbn [filter]. change (newline LF) with true. cbn [List.length].
  rewrite filter_length_app. change (filter newline (py "|-|-|")) with (@nil ascii).
  cbn [filter]. change (newline LF) with true. cbn [List.length].
  rewrite filter_length_app.
  rewrite (no_newline_filter _ (two_cells_no_newline _ _ Ha Hb)). reflexivity.
Qed.

(** Every match that starts at the head of the block covers the block. *)
Lemma simple_block_matches_all fl q :
  In q (matches true table_pattern (fl, block)) -> snd q = [].
Proof.
  intros Hq. apply matches_sound in Hq. destruct Hq as (w & Ew & Lw).
  simpl snd in Ew. apply lang_table_pattern, table_block_newlines in Lw.
  pose proof simple_block_newlines as Hn. rewrite Ew, filter_length_app in Hn.
  destruct (snd q) as [|x l] eqn:E; [reflexivity|exfalso].
  destruct (exists_last (l := x :: l)) as (l' & y & El); [discriminate|].
  rewrite El in *. unfold block in Ew.
  replace (hdr ++ LF :: py "|-|-|" ++ LF :: row ++ [LF])
    with ((hdr ++ LF :: py "|-|-|" ++ LF :: row) ++ [LF]) in Ew
    by (rewrite <- app_assoc; simpl; rewrite <- app_assoc; reflexivity).
  rewrite app_assoc in Ew. apply app_inj_tail in Ew. destruct Ew as [_ <-].
  rewrite filter_length_app in Hn. cbn in Hn. lia.
Qed.

Lemma simple_block_first_match fl :
  exists q qs, matches true table_pattern (fl, block) = q :: qs /\ snd q = [].
Proof.
  destruct (@matches_complete true table_pattern block) with (b := fl) (rest := @nil ascii)
    as [b' Hin].
  - apply lang_table_pattern, simple_block_is_block.
  - reflexivity.
  - rewrite app_nil_r in Hin.
    destruct (matches true table_pattern (fl, block)) as [|q qs] eqn:E;
      [destruct Hin|].
    exists q, qs. split; [reflexivity|].
    apply (@simple_block_matches_all fl). rewrite E. left. reflexivity.
Qed.

Lemma simple_block_finditer : finditer true table_pattern block = [block].
Proof.
  apply (@finditer_whole block "|"
           ((c1 ++ "|" :: c2 ++ ["|"]) ++ LF :: py "|-|-|" ++ LF :: row ++ [LF]));
    [reflexivity|].
  apply simple_block_first_match.
Qed.

Lemma simple_block_parse :
  parse_table block =
  inr (mkFrame [strip c1; strip c2] [[Some (strip a); Some (strip b)]]).
Proof.
  destruct (cell_facts _ Hc1) as [P1 N1], (cell_facts _ Hc2) as [P2 N2].
  destruct (cell_facts _ Ha) as [Pa Na], (cell_facts _ Hb) as [Pb Nb].
  assert (Eh : strip hdr = hdr) by apply strip_two_cells.
  assert (Er : strip row = row) by apply strip_two_cells.
  assert (Th : truthy hdr = true) by reflexivity.
  assert (Tr : truthy row = true) by reflexivity.
  assert (Es : split LF block = [hdr; py "|-|-|"; row; []]).
  { unfold block.
    rewrite split_app_sep
      by (apply no_newline_LF, two_cells_no_newline; assumption).
    rewrite split_app_sep by (vm_compute; intuition discriminate).
    replace (row ++ [LF]) with (row ++ LF :: []) by reflexivity.
    rewrite split_app_sep
      by (apply no_newline_LF, two_cells_no_newline; assumption).
    reflexivity. }
  unfold parse_table. rewrite Es. cbn [filter]. rewrite Eh, Er, Th, Tr.
  change (truthy (strip (py "|-|-|"))) with true.
  change (truthy (strip [])) with false. cbn [map skipn].
  rewrite Eh, Er. unfold hdr, row. rewrite !cells_two by assumption.
  reflexivity.
Qed.

Lemma simple_block_tables pre ui :
  no_pipe pre = true ->
  extract_tables (pre ++ one_row_block c1 c2 a b) ui =
  (inr [mkFrame [strip c1; strip c2] [[Some (strip a); Some (strip b)]]], ui).
Proof.
  intros Hp. change (one_row_block c1 c2 a b) with block.
  rewrite extract_tables_prefix by exact Hp.
  rewrite extract_tables_spec, simple_block_finditer.
  unfold parsed, reported. cbn [flat_map]. rewrite simple_block_parse.
  simpl. rewrite app_nil_r. reflexivity.
Qed.

End SimpleBlock.

(** C6.  The block whose header line is [H|c1|c2|], whose separator line is
    [|-|-|] and whose only data line is [|a|b|], each line ended by [\n],
    gives one table with the columns [c1] and [c2] and the one row [a], [b];
    this holds for all cells [c1], [c2], [a], [b] without pipes and line
    breaks, each cell being trimmed.  The same block with [\r\n] line ends
    gives the same table. *)
Theorem one_row_block_table :
  (forall c1 c2 a b ui,
      cell c1 = true -> cell c2 = true -> cell a = true -> cell b = true ->
      extract_tables (py "H" ++ one_row_block c1 c2 a b) ui =
      (inr [mkFrame [strip c1; strip c2] [[Some (strip a); Some (strip b)]]],
       ui)) /\
  py "H" ++ one_row_block (py "c1") (py "c2") (py "a") (py "b") =
  py "H|c1|c2|\n|-|-|\n|a|b|\n" /\
  extract_tables (py "H|c1|c2|\n|-|-|\n|a|b|\n") [] =
  (inr [mkFrame [py "c1"; py "c2"] [[Some (py "a"); Some (py "b")]]], []) /\
  extract_tables (py "H|c1|c2|\r\n|-|-|\r\n|a|b|\r\n") [] =
  (inr [mkFrame [py "c1"; py "c2"] [[Some (py "a"); Some (py "b")]]], []).
Proof.
  split; [|repeat split; vm_compute; reflexivity].
  intros c1 c2 a b ui H1 H2 H3 H4.
  apply simple_block_tables; auto.
Qed.

Lemma one_row_block_table_witness :
  extract_tables
    (py "H" ++ one_row_block (py " Week ") (py "Km") (py "1") (py " 2.5 ")) [] =
  (inr [mkFrame [py "Week"; py "Km"] [[Some (py "1"); Some (py "2.5")]]], []).
Proof.
  apply (proj1 one_row_block_table (py " Week ") (py "Km") (py "1") (py " 2.5 ") []);
    vm_compute; reflexivity.
Defined.

(** C10.  A matched block starts with a pipe, wherever in its line that
    pipe stands: text without a pipe in front of the rest of the input is
    skipped, and the table is read from the first pipe on, its column names
    being the fields between the pipes of the remainder of the header
    line. *)
Theorem header_not_anchored :
  (forall text block,
      In block (finditer true table_pattern text) ->
      exists rest, block = "|" :: rest) /\
  (forall pre text ui,
      no_pipe pre = true ->
      extract_tables (pre ++ text) ui = extract_tables text ui) /\
  (forall pre c1 c2 a b ui,
      no_pipe pre = true ->
      cell c1 = true -> cell c2 = true -> cell a = true -> cell b = true ->
      extract_tables (pre ++ one_row_block c1 c2 a b) ui =
      (inr [mkFrame [strip c1; strip c2] [[Some (strip a); Some (strip b)]]],
       ui)) /\
  extract_tables (py "Costs: |Item|Price|\n|-|-|\n|Shoes|90|\n") [] =
  (inr [mkFrame [py "Item"; py "Price"] [[Some (py "Shoes"); Some (py "90")]]],
   []).
Proof.
  split; [|split; [|split]].
  - intros text block H. apply finditer_table_block in H.
    destruct H as [(hdr & n1 & sep & n2 & rows & -> & (x & -> & _) & _) _].
    eexists. reflexivity.
  - intros pre text ui H. apply extract_tables_prefix; exact H.
  - intros pre c1 c2 a b ui Hp H1 H2 H3 H4. apply simple_block_tables; auto.
  - vm_compute. reflexivity.
Qed.

Lemma header_not_anchored_witness :
  (exists rest, py "|x|\n|-|\n|1|\n" = "|" :: rest) /\
  extract_tables (py "Weekly Progress: " ++ py "|x|\n|-|\n|1|\n") [] =
  extract_tables (py "|x|\n|-|\n|1|\n") [] /\
  extract_tables (py "see: " ++ one_row_block (py "x") (py "y") (py "1") (py "2")) [] =
  (inr [mkFrame [py "x"; py "y"] [[Some (py "1"); Some (py "2")]]], []).
Proof.
  split; [|split].
  - apply (proj1 header_not_anchored (py "see: |x|\n|-|\n|1|\n")).
    vm_compute. left. reflexivity.
  - apply (proj1 (proj2 header_not_anchored)). vm_compute. reflexivity.
  - apply (proj1 (proj2 (proj2 header_not_anchored))
             (py "see: ") (py "x") (py "y") (py "1") (py "2") []);
      vm_compute; reflexivity.
Defined.

(** * Further properties of the extractors and of their callers *)

(** ** Trimming *)

Lemma dropwhile_split p s : exists z, s = z ++ dropwhile p s /\ forallb p z = true.
Proof.
  induction s as [|c s (z & E & Hz)]; simpl.
  - exists []. auto.
  - destruct (p c) eqn:Ec.
    + exists (c :: z). simpl. rewrite Ec, Hz. split; [congruence | reflexivity].
    + exists []. auto.
Qed.

Lemma dropwhile_fixed p s :
  dropwhile p s = s <-> match s with [] => True | c :: _ => p c = false end.
Proof.
  destruct s as [|c s]; simpl; [tauto|].
  destruct (p c) eqn:Ec; split; auto; try discriminate.
  intros E. destruct (dropwhile_split p s) as (z & Ez & _).
  apply (f_equal (@List.length ascii)) in E, Ez.
  rewrite length_app in Ez. simpl in E. lia.
Qed.

Lemma dropwhile_idem p s : dropwhile p (dropwhile p s) = dropwhile p s.
Proof.
  apply dropwhile_fixed. destruct (dropwhile p s) as [|c u] eqn:E; [exact I|].
  eapply dropwhile_head; exact E.
Qed.

(** What [strip] returns starts and ends with a character it keeps. *)
Lemma strip_by_trimmed p s :
  dropwhile p (strip_by p s) = strip_by p s /\
  dropwhile p (rev (strip_by p s)) = rev (strip_by p s).
Proof.
  unfold strip_by, rstrip_by, lstrip_by. set (u := dropwhile p s). split.
  - destruct (dropwhile_split p (rev u)) as (z & Ez & _).
    apply (f_equal (@rev ascii)) in Ez. rewrite rev_involutive, rev_app_distr in Ez.
    apply dropwhile_fixed.
    destruct (rev (dropwhile p (rev u))) as [|c t] eqn:Et; [exact I|].
    assert (Hu : dropwhile p u = u) by apply dropwhile_idem.
    rewrite Ez in Hu. apply dropwhile_fixed in Hu. exact Hu.
  - rewrite rev_involutive. apply dropwhile_idem.
Qed.

Lemma strip_by_of_trimmed p t :
  dropwhile p t = t -> dropwhile p (rev t) = rev t -> strip_by p t = t.
Proof.
  intros H1 H2. unfold strip_by, rstrip_by, lstrip_by.
  rewrite H1, H2. apply rev_involutive.
Qed.

Lemma strip_by_idem p s : strip_by p (strip_by p s) = strip_by p s.
Proof. destruct (strip_by_trimmed p s). apply strip_by_of_trimmed; assumption. Qed.

(** What [strip] returns is a piece of its argument. *)
Lemma strip_by_piece p s : exists z1 z2, s = z1 ++ strip_by p s ++ z2.
Proof.
  unfold strip_by, rstrip_by, lstrip_by.
  destruct (dropwhile_split p s) as (z1 & E1 & _).
  destruct (dropwhile_split p (rev (dropwhile p s))) as (z2 & E2 & _).
  apply (f_equal (@rev ascii)) in E2. rewrite rev_involutive, rev_app_distr in E2.
  exists z1, (rev z2). rewrite <- E2. exact E1.
Qed.

Lemma split_no_sep sep s l : In l (split sep s) -> ~ In sep l.
Proof.
  revert l. induction s as [|c s IH]; simpl; intros l Hl.
  - destruct Hl as [<-|[]]. simpl. tauto.
  - destruct (Ascii.eqb_spec c sep) as [->|Hc].
    + destruct Hl as [<-|Hl]; [simpl; tauto | auto].
    + destruct (split sep s) as [|l0 ls] eqn:E.
      * destruct Hl as [<-|[]]. simpl. intuition congruence.
      * destruct Hl as [<-|Hl].
        -- simpl. intros [E'|Hin]; [congruence|]. apply (IH l0); simpl; auto.
        -- apply IH. simpl. auto.
Qed.

(** ** More on [extract_sections] *)

(** A property of the dictionary kept by every assignment the extractor
    makes: a non-empty title, a non-empty trimmed body. *)
Lemma run_invariant_body (P : list (list ascii * list ascii) -> Prop) :
  (forall d k c, P d -> k <> [] -> strip (join [LF] c) <> [] ->
                 P (dict_set d k (strip (join [LF] c)))) ->
  forall ls st, P (sections st) -> P (commit (run st ls)).
Proof.
  intros HP.
  assert (Hc : forall st, P (sections st) -> P (commit st)).
  { intros st H. destruct (commit_cases st) as [E|(t & _ & Ht & _ & Hb & E)];
      rewrite E; auto. }
  induction ls as [|l ls IH]; intros st H; [apply Hc; exact H|].
  rewrite run_cons. apply IH.
  destruct (sections_step st l) as [E|E]; rewrite E; auto.
Qed.

(** X1.  Every body in the result is trimmed, and passes the test that
    [main] makes before it displays a section: no extracted section is
    hidden. *)
Theorem bodies_trimmed_and_shown :
  forall text k v,
    In (k, v) (extract_sections text) -> strip v = v /\ shown v = true.
Proof.
  intros text.
  assert (H : forall k v, In (k, v) (extract_sections text) ->
                          strip v = v /\ v <> []).
  { unfold extract_sections, sections_of_lines. fold (run init (split LF text)).
    apply (run_invariant_body
             (fun d => forall k v, In (k, v) d -> strip v = v /\ v <> []));
      [|simpl; tauto].
    intros d k c Hd _ Hne k' v' Hin. apply In_dict_set in Hin.
    destruct Hin as [E|Hin]; [|eauto]. inversion E; subst.
    split; [apply strip_by_idem | exact Hne]. }
  intros k v Hin. destruct (H k v Hin) as [Hs Hne]. split; [exact Hs|].
  unfold shown, isspace. apply truthy_true in Hne. rewrite Hne. simpl.
  destruct (forallb is_space v) eqn:E; [|reflexivity].
  apply strip_nil_iff in E. rewrite Hs in E. subst v. discriminate.
Qed.

Lemma bodies_trimmed_and_shown_witness :
  strip (py "run\n\nwalk") = py "run\n\nwalk" /\ shown (py "run\n\nwalk") = true.
Proof.
  apply (bodies_trimmed_and_shown
           (py "intro\n## 1. Plan **\n  run\n\nwalk  \n# End\nbye") (py "1. Plan")).
  vm_compute. left. reflexivity.
Defined.

(** X2.  No key of the result contains a line feed, and none starts or
    ends with one of the characters [*], [#], space: cutting them from a
    key again changes nothing. *)
Theorem keys_are_clean :
  forall text k,
    In k (keys (extract_sections text)) ->
    ~ In LF k /\ strip_chars (py "*# \n") k = k.
Proof.
  intros text k Hin. apply key_has_heading in Hin.
  destruct Hin as (h & Hh & _ & ->). split.
  - intros Hin. apply (split_no_sep _ _ _ Hh).
    unfold title_of, strip_chars in Hin.
    destruct (strip_by_piece (fun c => mem c (py "*# \n")) h) as (z1 & z2 & E).
    rewrite E. apply in_or_app. right. apply in_or_app. left. exact Hin.
  - unfold title_of, strip_chars. apply strip_by_idem.
Qed.

Lemma keys_are_clean_witness :
  ~ In LF (py "1. Plan") /\ strip_chars (py "*# \n") (py "1. Plan") = py "1. Plan".
Proof.
  apply (keys_are_clean (py "intro\n## 1. Plan **\nrun\n\nwalk\n# End\nbye")).
  vm_compute. left. reflexivity.
Defined.

(** X3.  Lines in front of the first heading are discarded: the result is
    that of the text without them. *)
Theorem preamble_is_discarded :
  forall pre rest,
    Forall (fun l => ~ In LF l) (pre ++ rest) ->
    Forall (fun l => is_heading l = false) pre ->
    extract_sections (join [LF] (pre ++ rest)) = extract_sections (join [LF] rest).
Proof.
  intros pre rest HLF Hpre.
  assert (HLF' : Forall (fun l => ~ In LF l) rest)
    by (apply Forall_app in HLF; tauto).
  rewrite !extract_sections_join by assumption.
  unfold sections_of_lines. fold (run init (pre ++ rest)). fold (run init rest).
  rewrite run_app, (@run_body_idle init pre); auto.
Qed.

Lemma preamble_is_discarded_witness :
  extract_sections (py "Sure, here is the plan:\n\n# A\nx\n# B\ny") =
  extract_sections (py "# A\nx\n# B\ny").
Proof.
  apply (@preamble_is_discarded [py "Sure, here is the plan:"; []]
                               [py "# A"; py "x"; py "# B"; py "y"]).
  - apply no_LF_check. vm_compute. reflexivity.
  - apply not_heading_check. vm_compute. reflexivity.
Defined.

Lemma dropwhile_app_stop p x d :
  p d = false -> dropwhile p (x ++ [d]) = dropwhile p x ++ [d].
Proof.
  intros Hd. induction x as [|c x IH]; simpl; [rewrite Hd; reflexivity|].
  destruct (p c); [exact IH | reflexivity].
Qed.

(** The title of a line that ends with a carriage return: the markup is cut
    on the left only. *)
Lemma title_of_CR x :
  title_of (x ++ [CR]) = dropwhile (fun c => mem c (py "*# \n")) x ++ [CR].
Proof.
  unfold title_of, strip_chars, strip_by, lstrip_by, rstrip_by.
  rewrite dropwhile_app_stop by reflexivity.
  rewrite rev_app_distr. simpl. rewrite rev_involutive. reflexivity.
Qed.

(** X4.  In a text whose heading lines end with a carriage return, as in a
    text with [\r\n] line ends, every title of the result ends with that
    carriage return: [strip('*# \n')] does not remove it. *)
Theorem titles_keep_carriage_return :
  forall text k,
    (forall h, In h (split LF text) -> is_heading h = true ->
               exists x, h = x ++ [CR]) ->
    In k (keys (extract_sections text)) ->
    exists y, k = y ++ [CR].
Proof.
  intros text k Hcr Hin. apply key_has_heading in Hin.
  destruct Hin as (h & Hh & Hhead & ->).
  destruct (Hcr h Hh Hhead) as (x & ->). rewrite title_of_CR. eauto.
Qed.

Lemma titles_keep_carriage_return_witness :
  exists y, py "Plan\r" = y ++ [CR].
Proof.
  apply (@titles_keep_carriage_return (py "# Plan\r\nrun\r\n## Next\r\nwalk\r\n")
                                      (py "Plan\r")).
  - intros h Hh Hhead. vm_compute in Hh.
    destruct Hh as [<-|[<-|[<-|[<-|[<-|[]]]]]]; try discriminate Hhead.
    + exists (py "# Plan"). reflexivity.
    + exists (py "## Next"). reflexivity.
  - vm_compute. left. reflexivity.
Defined.

Lemma split_nonempty sep s : split sep s <> [].
Proof.
  destruct s as [|c s]; simpl; [discriminate|].
  destruct (c =? sep)%char; [discriminate|].
  destruct (split sep s); discriminate.
Qed.

Lemma split_app_at_sep sep a b :
  split sep (a ++ sep :: b) = split sep a ++ split sep b.
Proof.
  induction a as [|c a IH]; simpl.
  - rewrite Ascii.eqb_refl. reflexivity.
  - destruct (c =? sep)%char; [rewrite IH; reflexivity|].
    rewrite IH. pose proof (split_nonempty sep a) as Hne.
    destruct (split sep a) as [|l ls]; [congruence | reflexivity].
Qed.

Lemma keys_dict_set_value d k v v' : keys (dict_set d k v) = keys (dict_set d k v').
Proof.
  induction d as [|[k1 v1] d IH]; simpl; [reflexivity|].
  destruct (str_eqb k1 k); simpl; [reflexivity | rewrite IH; reflexivity].
Qed.

Lemma nonblank_body_grows c l :
  strip (join [LF] c) <> [] -> strip (join [LF] (c ++ [l])) <> [].
Proof.
  intros H E. apply H. apply strip_nil_iff. apply strip_nil_iff in E.
  rewrite forallb_join_space in *. rewrite forallb_app in E.
  apply andb_true_iff in E. tauto.
Qed.

Lemma keys_commit_step st l :
  exists ext, keys (commit (step st l)) = keys (commit st) ++ ext.
Proof.
  unfold step. destruct (is_heading l).
  - exists []. rewrite app_nil_r, commit_skip; [reflexivity|].
    right. reflexivity.
  - destruct (active st) eqn:Ea; [|exists []; rewrite app_nil_r; reflexivity].
    set (st' := mkState (sections st) (current_section st)
                        (current_content st ++ [l])).
    destruct (commit_cases st) as [E|(t & Hs & Ht & _ & Hb & E)].
    + rewrite E. destruct (keys_run_ext [] st') as [ext Hext]. eauto.
    + exists []. rewrite app_nil_r, E.
      rewrite (@commit_store st' t); auto.
      * apply keys_dict_set_value.
      * apply nonblank_body_grows; exact Hb.
Qed.

Lemma keys_commit_run ls : forall st,
  exists ext, keys (commit (run st ls)) = keys (commit st) ++ ext.
Proof.
  induction ls as [|l ls IH]; intros st.
  - exists []. rewrite app_nil_r. reflexivity.
  - rewrite run_cons. destruct (IH (step st l)) as [e1 E1].
    destruct (keys_commit_step st l) as [e2 E2].
    exists (e2 ++ e1). rewrite E1, E2, app_assoc. reflexivity.
Qed.

(** X5.  More lines at the end of a text never remove or move a section
    already found: the titles of the longer text start with the titles of
    the shorter one, in the same order. *)
Theorem sections_grow_at_the_end :
  forall text more,
    exists later,
      keys (extract_sections (text ++ LF :: more)) =
      keys (extract_sections text) ++ later.
Proof.
  intros text more. unfold extract_sections, sections_of_lines.
  rewrite split_app_at_sep.
  fold (run init (split LF text ++ split LF more)). fold (run init (split LF text)).
  rewrite run_app. apply keys_commit_run.
Qed.

(** ** More on [extract_tables] *)

Lemma count_app c s t : count c (s ++ t) = count c s + count c t.
Proof. unfold count. rewrite filter_app, length_app. reflexivity. Qed.

Lemma count_none p c z : p c = false -> forallb p z = true -> count c z = 0.
Proof.
  intros Hc Hz. unfold count. rewrite filter_none; [reflexivity|].
  intros d Hd. rewrite forallb_forall in Hz. specialize (Hz d Hd).
  destruct (Ascii.eqb_spec d c) as [->|_]; [congruence | reflexivity].
Qed.

Lemma strip_by_pieces p s :
  exists z1 z2, s = z1 ++ strip_by p s ++ z2 /\
                forallb p z1 = true /\ forallb p z2 = true.
Proof.
  unfold strip_by, rstrip_by, lstrip_by.
  destruct (dropwhile_split p s) as (z1 & E1 & H1).
  destruct (dropwhile_split p (rev (dropwhile p s))) as (z2 & E2 & H2).
  apply (f_equal (@rev ascii)) in E2. rewrite rev_involutive, rev_app_distr in E2.
  exists z1, (rev z2). rewrite <- E2, forallb_rev. auto.
Qed.

(** Stripping removes none of the characters it is not asked to remove. *)
Lemma strip_by_count p c s : p c = false -> count c (strip_by p s) = count c s.
Proof.
  intros Hc. destruct (strip_by_pieces p s) as (z1 & z2 & E & H1 & H2).
  rewrite E at 2. rewrite !count_app.
  rewrite (count_none p c z1), (count_none p c z2) by assumption. lia.
Qed.

Lemma split_length sep s : List.length (split sep s) = S (count sep s).
Proof.
  induction s as [|c s IH]; [reflexivity|]. unfold count in *. simpl.
  destruct (c =? sep)%char; simpl; [rewrite IH; reflexivity|].
  destruct (split sep s); simpl in *; [discriminate IH | exact IH].
Qed.

Lemma removelast_length {A} (l : list A) :
  List.length (removelast l) = List.length l - 1.
Proof.
  induction l as [|a l IH]; [reflexivity|].
  destruct l as [|b l]; [reflexivity|].
  change (removelast (a :: b :: l)) with (a :: removelast (b :: l)).
  simpl List.length in *. rewrite IH. lia.
Qed.

(** A line with [n] pipes has [n - 1] cells. *)
Lemma cells_length line : List.length (cells line) = count "|" line - 1.
Proof.
  unfold cells, slice_1_m1. rewrite length_map, removelast_length.
  pose proof (split_length "|" line) as H.
  destruct (split "|" line) as [|l ls]; simpl in *; lia.
Qed.

Lemma split_app_prefix sep a b :
  ~ In sep a ->
  exists h t, split sep b = h :: t /\ split sep (a ++ b) = (a ++ h) :: t.
Proof.
  intros Ha. induction a as [|c a IH]; simpl.
  - pose proof (split_nonempty sep b). destruct (split sep b) as [|h t]; [congruence|].
    eauto.
  - destruct (Ascii.eqb_spec c sep) as [->|_]; [simpl in Ha; tauto|].
    destruct IH as (h & t & E1 & E2); [simpl in Ha; tauto|].
    exists h, t. rewrite E2. auto.
Qed.

Lemma dot_no_LF x : forallb dot x = true -> ~ In LF x.
Proof.
  intros H Hin. rewrite forallb_forall in H. specialize (H _ Hin). discriminate.
Qed.

(** The first line of a matched block, as [parse_table] reads it, holds two
    pipes or more. *)
Lemma table_block_lines w :
  table_block w ->
  exists line0 lines,
    map strip (filter (fun l => truthy (strip l)) (split LF w)) = line0 :: lines /\
    2 <= count "|" line0.
Proof.
  intros (hdr & n1 & sep & n2 & rows & -> & (x & -> & Hx) & _).
  destruct (@split_app_prefix LF ("|" :: x ++ ["|"])
              (n1 :: sep ++ n2 :: List.concat rows)) as (h & t & _ & E).
  { simpl. intros [E|Hin]; [discriminate|]. apply in_app_or in Hin.
    destruct Hin as [Hin|[E|[]]]; [|discriminate]. exact (dot_no_LF _ Hx Hin). }
  rewrite E. cbn [filter].
  assert (Hc : 2 <= count "|" (strip (("|" :: x ++ ["|"]) ++ h))).
  { unfold strip. rewrite strip_by_count by reflexivity.
    replace (("|" :: x ++ ["|"]) ++ h) with (["|"] ++ x ++ ["|"] ++ h)
      by (simpl; rewrite <- app_assoc; reflexivity).
    rewrite !count_app. change (count "|" ["|"]) with 1. lia. }
  destruct (strip (("|" :: x ++ ["|"]) ++ h)) as [|c l] eqn:Es;
    [unfold count in Hc; simpl in Hc; lia|].
  cbn [truthy map]. rewrite Es. eauto.
Qed.

Lemma width_bound data row : In row data -> List.length row <= width data.
Proof.
  induction data as [|r data IH]; simpl; intros H; [destruct H|].
  destruct H as [->|H]; [lia|]. specialize (IH H). lia.
Qed.

Lemma pad_length k row : List.length row <= k -> List.length (pad k row) = k.
Proof.
  intros H. unfold pad. rewrite length_app, length_map, repeat_length. lia.
Qed.

Lemma DataFrame_of_inr data headers df :
  DataFrame_of data headers = inr df ->
  columns df = headers /\
  List.length (rows df) = List.length data /\
  forall row, In row (rows df) -> List.length row = List.length headers.
Proof.
  unfold DataFrame_of. destruct data as [|r data].
  - intros E. inversion E; subst. simpl. tauto.
  - destruct (Nat.eqb_spec (width (r :: data)) (List.length headers)) as [Ew|_];
      [|discriminate].
    intros E.
    assert (Edf : df = mkFrame headers (map (pad (width (r :: data))) (r :: data)))
      by congruence.
    rewrite Edf. cbn [columns rows].
    split; [reflexivity|]. split; [apply length_map|].
    intros row Hrow. apply in_map_iff in Hrow. destruct Hrow as (r0 & <- & Hr0).
    rewrite pad_length; [exact Ew | apply width_bound; exact Hr0].
Qed.

Lemma DataFrame_of_inl data headers e :
  DataFrame_of data headers = inl e ->
  e = ValueError (List.length headers) (width data) /\
  List.length headers <> width data.
Proof.
  unfold DataFrame_of. destruct data as [|r data]; [discriminate|].
  destruct (Nat.eqb_spec (width (r :: data)) (List.length headers)) as [_|Ew];
    [discriminate|].
  intros E. inversion E; subst. split; [reflexivity | congruence].
Qed.

(** What [parse_table] does with a matched block. *)
Lemma parse_table_block w :
  table_block w ->
  exists headers data,
    parse_table w = DataFrame_of data headers /\ 1 <= List.length headers.
Proof.
  intros H. destruct (table_block_lines H) as (line0 & lines & E & Hc).
  exists (cells line0), (map cells (skipn 2 (line0 :: lines))).
  unfold parse_table. rewrite E. split; [reflexivity|].
  rewrite cells_length. lia.
Qed.

(** X6.  Every table returned has one column or more, and every row of it
    has as many cells as there are columns; so a returned table is [empty],
    for [main], exactly when it has no row. *)
Theorem returned_tables_are_rectangular :
  forall text ui ts ui' df,
    extract_tables text ui = (inr ts, ui') -> In df ts ->
    columns df <> [] /\
    (forall row, In row (rows df) -> List.length row = List.length (columns df)) /\
    empty df = negb (truthy (rows df)).
Proof.
  intros text ui ts ui' df E Hin. rewrite extract_tables_spec in E.
  inversion E; subst. unfold parsed in Hin. apply in_flat_map in Hin.
  destruct Hin as (block & Hb & Hdf).
  apply finditer_table_block in Hb. destruct Hb as [Hb _].
  destruct (parse_table_block Hb) as (headers & data & Ep & Hh).
  rewrite Ep in Hdf. destruct (DataFrame_of data headers) as [e|df'] eqn:Ed;
    [destruct Hdf|].
  destruct Hdf as [->|[]]. apply DataFrame_of_inr in Ed.
  destruct Ed as (Ec & _ & Hr).
  assert (Hne : columns df <> []).
  { rewrite Ec. intros ->. simpl in Hh. lia. }
  split; [exact Hne|]. split.
  - intros row Hrow. rewrite Ec. apply Hr; exact Hrow.
  - unfold empty. apply truthy_true in Hne. rewrite Hne. apply orb_false_r.
Qed.

Lemma returned_tables_are_rectangular_witness :
  [py "a"; py "b"] <> [] /\
  (forall row, In row [[Some (py "1"); Some (py "2")]; [Some (py "3"); None]] ->
               List.length row = List.length [py "a"; py "b"]) /\
  empty (mkFrame [py "a"; py "b"] [[Some (py "1"); Some (py "2")]; [Some (py "3"); None]]) =
  negb (truthy [[Some (py "1"); Some (py "2")]; [Some (py "3"); None]]).
Proof.
  apply (@returned_tables_are_rectangular (py "|a|b|\n|-|-|\n|1|2|\n|3|\n") []
           [mkFrame [py "a"; py "b"] [[Some (py "1"); Some (py "2")]; [Some (py "3"); None]]]
           []
           (mkFrame [py "a"; py "b"] [[Some (py "1"); Some (py "2")]; [Some (py "3"); None]])).
  - vm_compute. reflexivity.
  - left. reflexivity.
Defined.

(** X7.  The only exception [extract_tables] ever reports is the
    [ValueError] of a block whose widest data row does not have as many
    cells as its header, which has one cell or more; [lines[0]] never
    fails. *)
Theorem only_width_mismatch_is_reported :
  forall text ui,
    exists errs,
      snd (extract_tables text ui) = ui ++ errs /\
      Forall (fun e => exists n k, e = ValueError n k /\ n <> k /\ 1 <= n) errs.
Proof.
  intros text ui. rewrite extract_tables_spec. cbn [snd].
  exists (reported (finditer true table_pattern text)). split; [reflexivity|].
  apply Forall_forall. intros e He. unfold reported in He.
  apply in_flat_map in He. destruct He as (block & Hb & He).
  apply finditer_table_block in Hb. destruct Hb as [Hb _].
  destruct (parse_table_block Hb) as (headers & data & Ep & Hh).
  rewrite Ep in He. destruct (DataFrame_of data headers) as [e'|df] eqn:Ed;
    [|destruct He].
  destruct He as [->|[]]. apply DataFrame_of_inl in Ed. destruct Ed as [-> Hne].
  eauto.
Qed.

Lemma skipn_length_app {A} (w r : list A) : skipn (List.length w) (w ++ r) = r.
Proof. induction w as [|a w IH]; simpl; [reflexivity | exact IH]. Qed.

Lemma table_block_nonempty w : table_block w -> w <> [].
Proof.
  intros (hdr & n1 & sep & n2 & rows & -> & (x & -> & _) & _). discriminate.
Qed.

(** The matches of the table pattern, and the text between them. *)
Lemma finditer_from_weave : forall s k b,
  k <= List.length s ->
  exists gaps last,
    List.length gaps = List.length (finditer_from true table_pattern k b s) /\
    skipn k s = weave gaps (finditer_from true table_pattern k b s) last.
Proof.
  induction s as [|c s IH]; intros k b Hk.
  - cbn [finditer_from]. rewrite table_matches_nil.
    exists [], []. destruct k; auto.
  - cbn [finditer_from]. destruct k as [|k].
    + destruct (matches true table_pattern (b, c :: s)) as [|q qs] eqn:E.
      * destruct (IH 0 (fst (after true c s)) (Nat.le_0_l _))
          as (gaps & last & Hl & Hw).
        cbn [skipn] in *.
        destruct (finditer_from true table_pattern 0 (fst (after true c s)) s)
          as [|blk blks] eqn:Ef.
        -- exists [], (c :: s). auto.
        -- destruct gaps as [|g gs]; [discriminate Hl|].
           exists ((c :: g) :: gs), last. split; [exact Hl|].
           cbn [weave] in *. rewrite Hw. reflexivity.
      * assert (Hq : In q (matches true table_pattern (b, c :: s)))
          by (rewrite E; left; reflexivity).
        apply matches_sound in Hq. destruct Hq as (w & Ew & Lw). simpl snd in Ew.
        apply lang_table_pattern, table_block_nonempty in Lw.
        destruct w as [|c' w]; [congruence|]. injection Ew as <- Es.
        rewrite Es. change (c :: w ++ snd q) with ((c :: w) ++ snd q).
        rewrite matched_app.
        replace (List.length (c :: w) - 1) with (List.length w) by (simpl; lia).
        destruct (IH (List.length w) (fst (after true c (w ++ snd q))))
          as (gaps & last & Hl & Hw).
        { rewrite Es, length_app. lia. }
        rewrite Es in Hl, Hw. rewrite skipn_length_app in Hw.
        exists ([] :: gaps), last. cbn [List.length weave skipn app].
        split; [rewrite Hl; reflexivity|]. rewrite <- Hw. reflexivity.
    + cbn [skipn]. apply IH. simpl in Hk. lia.
Qed.

Lemma weave_newlines gaps blocks last :
  Forall table_block blocks -> List.length gaps = List.length blocks ->
  3 * List.length blocks <= List.length (filter newline (weave gaps blocks last)).
Proof.
  intros H. revert gaps. induction H as [|blk blocks Hb _ IH]; intros gaps Hl.
  - simpl. lia.
  - destruct gaps as [|g gs]; [discriminate Hl|]. cbn [weave].
    rewrite !filter_length_app. apply table_block_newlines in Hb.
    specialize (IH gs). simpl in Hl. cbn [List.length]. lia.
Qed.

(** X8.  The blocks that [extract_tables] reads are pairwise disjoint pieces
    of the text, found from left to right: the text is a gap, a block, a
    gap, a block, and so on, and the result is made of the tables of these
    blocks, in this order.  As a block holds three line breaks, a text with
    [n] line-break characters gives at most [n / 3] tables. *)
Theorem blocks_are_disjoint_and_ordered :
  forall text ui,
    exists gaps blocks last,
      text = weave gaps blocks last /\
      List.length gaps = List.length blocks /\
      Forall table_block blocks /\
      extract_tables text ui = (inr (parsed blocks), ui ++ reported blocks) /\
      3 * List.length (parsed blocks) <= List.length (filter newline text).
Proof.
  intros text ui.
  destruct (@finditer_from_weave text 0 true (Nat.le_0_l _)) as (gaps & last & Hl & Hw).
  fold (finditer true table_pattern text) in Hl, Hw. cbn [skipn] in Hw.
  assert (Hb : Forall table_block (finditer true table_pattern text)).
  { apply Forall_forall. intros blk H. apply finditer_table_block in H. tauto. }
  exists gaps, (finditer true table_pattern text), last.
  split; [exact Hw|]. split; [exact Hl|]. split; [exact Hb|].
  split; [apply extract_tables_spec|].
  pose proof (@weave_newlines gaps _ last Hb Hl) as Hn. rewrite <- Hw in Hn.
  assert (Hp : forall l, List.length (parsed l) <= List.length l).
  { induction l as [|t l IHl]; [simpl; lia|]. unfold parsed in *. simpl.
    rewrite length_app. destruct (parse_table t); simpl; lia. }
  specialize (Hp (finditer true table_pattern text)). lia.
Qed.

(** ** Well-formed tables *)

Lemma flat_map_flat_map {A B C} (f : A -> list B) (g : B -> list C) l :
  flat_map g (flat_map f l) = flat_map (fun x => flat_map g (f x)) l.
Proof.
  induction l as [|a l IH]; simpl; [reflexivity|].
  rewrite flat_map_app, IH. reflexivity.
Qed.

Lemma matches_cat_snoc m r s : forall p,
  matches m (cat_snoc r s) p = flat_map (matches m s) (matches m r p).
Proof.
  induction r as [| |f|r1 IH1 r2 IH2|r1 IH1 r2 IH2|g r IH]; intros p;
    try reflexivity.
  cbn [cat_snoc matches]. rewrite flat_map_flat_map.
  apply flat_map_ext. intros q. apply IH2.
Qed.

Lemma matches_cat m r1 r2 p :
  matches m (Cat r1 r2) p = flat_map (matches m r2) (matches m r1 p).
Proof. reflexivity. Qed.

(** The table pattern is its head followed by one data row or more. *)
Lemma table_pattern_head p :
  matches true table_pattern p =
  flat_map (matches true (Plus table_row)) (matches true table_head p).
Proof. rewrite <- matches_cat_snoc. reflexivity. Qed.

Lemma first_ends_at_flat_map {A} (f : A -> list (bool * list ascii)) l rest :
  (forall x, In x l -> f x = [] \/ first_ends_at (f x) rest) ->
  flat_map f l <> [] ->
  first_ends_at (flat_map f l) rest.
Proof.
  induction l as [|a l IH]; simpl; intros H Hne; [congruence|].
  destruct (H a (or_introl eq_refl)) as [E|(q & l' & E & Hq)].
  - rewrite E in *. simpl in *. apply IH; auto.
  - rewrite E. exists q, (l' ++ flat_map f l). auto.
Qed.

Lemma wrap_no_newline x : no_newline x = true -> no_newline (wrap x) = true.
Proof.
  intros H. unfold wrap. change ("|" :: x ++ ["|"]) with (["|"] ++ x ++ ["|"]).
  rewrite !no_newline_app, H. reflexivity.
Qed.

Lemma wrap_pipe_line x : no_newline x = true -> pipe_line (wrap x).
Proof. intros H. exists x. split; [reflexivity | apply no_newline_dot; exact H]. Qed.

Lemma pipe_line_no_LF l : pipe_line l -> ~ In LF l.
Proof.
  intros (y & -> & Hy). simpl. intros [E|Hin]; [discriminate|].
  apply in_app_or in Hin. destruct Hin as [Hin|[E|[]]]; [|discriminate].
  exact (dot_no_LF _ Hy Hin).
Qed.

(** A data row is matched in one way only: up to the end of its line. *)
Lemma table_row_matches x rest b :
  no_newline x = true ->
  matches true table_row (b, wrap x ++ LF :: rest) <> [] /\
  forall q, In q (matches true table_row (b, wrap x ++ LF :: rest)) -> snd q = rest.
Proof.
  intros Hx. split.
  - destruct (@matches_complete true table_row (wrap x ++ [LF])) with (b := b) (rest := rest)
      as [b' Hin].
    + apply lang_table_row. exists (wrap x), LF.
      repeat split. apply wrap_pipe_line; exact Hx.
    + reflexivity.
    + rewrite <- app_assoc in Hin. intros E.
      change ([LF] ++ rest) with (LF :: rest) in Hin. rewrite E in Hin. destruct Hin.
  - intros q Hq. apply matches_sound in Hq. destruct Hq as (w & Ew & Lw).
    cbn [snd] in Ew. apply lang_table_row in Lw.
    destruct Lw as (l & n & -> & Hl & Hn).
    rewrite <- (app_assoc l [n] (snd q)) in Ew.
    change ([n] ++ snd q) with (n :: snd q) in Ew.
    apply app_eq_app in Ew. destruct Ew as (z & [[E1 E2]|[E1 E2]]).
    + destruct z as [|c z]; simpl in E2; [congruence|].
      injection E2 as <- E2. exfalso.
      assert (Hn' : newline n = false).
      { apply (@no_newline_In (wrap x) n (wrap_no_newline _ Hx)).
        rewrite E1. apply in_or_app. right. left. reflexivity. }
      congruence.
    + destruct z as [|c z]; simpl in E2; [congruence|].
      injection E2 as <- E2. exfalso. apply (pipe_line_no_LF Hl).
      rewrite E1. apply in_or_app. right. left. reflexivity.
Qed.

(** The greedy repetition of data rows takes all the rows there are. *)
Lemma table_rows_star xs : forallb no_newline xs = true ->
  forall b,
    first_ends_at (matches true (Star true table_row)
                           (b, terminated (map wrap xs))) [].
Proof.
  induction xs as [|x xs IH]; intros H b.
  - rewrite matches_star. cbn. exists (b, []), []. auto.
  - simpl in H. apply andb_true_iff in H. destruct H as [Hx Hxs].
    change (terminated (map wrap (x :: xs)))
      with ((wrap x ++ [LF]) ++ terminated (map wrap xs)).
    rewrite <- app_assoc. change ([LF] ++ terminated (map wrap xs))
      with (LF :: terminated (map wrap xs)).
    destruct (@table_row_matches x (terminated (map wrap xs)) b Hx) as [Hne Hall].
    rewrite matches_star. cbv zeta.
    set (p := (b, wrap x ++ LF :: terminated (map wrap xs))) in *.
    assert (Hmore : first_ends_at
              (flat_map (fun q => if List.length (snd q) <? List.length (snd p)
                                  then matches true (Star true table_row) q else [])
                        (matches true table_row p)) []).
    { apply first_ends_at_flat_map.
      - intros q Hq. right. specialize (Hall q Hq).
        destruct q as [bq sq]. simpl in Hall. subst sq. cbn [snd].
        case_ltb; [apply IH; exact Hxs|].
        exfalso. subst p. cbn [snd] in *. rewrite length_app in *. simpl in *. lia.
      - destruct (matches true table_row p) as [|q qs] eqn:E; [congruence|].
        specialize (Hall q (or_introl eq_refl)).
        destruct q as [bq sq]. simpl in Hall. subst sq. cbn [flat_map snd].
        case_ltb.
        + destruct (IH Hxs bq) as (q0 & l0 & E0 & _). rewrite E0. discriminate.
        + exfalso. subst p. cbn [snd] in *. rewrite length_app in *. simpl in *. lia. }
    destruct Hmore as (q & l' & E & Hq). rewrite E.
    exists q, (l' ++ [p]). auto.
Qed.

Lemma table_rows_plus x xs b :
  forallb no_newline (x :: xs) = true ->
  first_ends_at (matches true (Plus table_row)
                         (b, terminated (map wrap (x :: xs)))) [].
Proof.
  intros H. simpl in H. apply andb_true_iff in H. destruct H as [Hx Hxs].
  change (terminated (map wrap (x :: xs)))
    with ((wrap x ++ [LF]) ++ terminated (map wrap xs)).
  rewrite <- app_assoc. change ([LF] ++ terminated (map wrap xs))
    with (LF :: terminated (map wrap xs)).
  destruct (@table_row_matches x (terminated (map wrap xs)) b Hx) as [Hne Hall].
  unfold Plus. rewrite matches_cat.
  apply first_ends_at_flat_map.
  - intros q Hq. right. specialize (Hall q Hq).
    destruct q as [bq sq]. simpl in Hall. subst sq.
    apply table_rows_star; exact Hxs.
  - destruct (matches true table_row (b, wrap x ++ LF :: terminated (map wrap xs)))
      as [|q qs] eqn:E; [congruence|].
    specialize (Hall q (or_introl eq_refl)).
    destruct q as [bq sq]. simpl in Hall. subst sq. cbn [flat_map].
    destruct (table_rows_star xs Hxs bq) as (q0 & l0 & E0 & _). rewrite E0.
    discriminate.
Qed.

Lemma terminated_cons l ls : terminated (l :: ls) = l ++ LF :: terminated ls.
Proof. unfold terminated. simpl. rewrite <- app_assoc. reflexivity. Qed.

(** In a text made of lines without line-break characters, a line-break
    character is the end of a line. *)
Lemma terminated_cut lines : forallb no_newline lines = true ->
  forall u n rest,
    terminated lines = u ++ n :: rest -> newline n = true ->
    exists l1 l2,
      lines = l1 ++ l2 /\ u ++ [n] = terminated l1 /\ rest = terminated l2 /\
      l1 <> [].
Proof.
  induction lines as [|l ls IH]; intros H u n rest E Hn.
  - destruct u; discriminate E.
  - simpl in H. apply andb_true_iff in H. destruct H as [Hl Hls].
    rewrite terminated_cons in E.
    assert (Hcase : (u = l /\ n = LF /\ rest = terminated ls) \/
                    exists z, u = l ++ LF :: z /\ terminated ls = z ++ n :: rest).
    { apply app_eq_app in E. destruct E as (z & [[E1 E2]|[E1 E2]]).
      - destruct z as [|c z]; simpl in E2.
        + injection E2 as -> ->. rewrite app_nil_r in E1. auto.
        + injection E2 as <- E2. exfalso.
          assert (Hn' : newline n = false).
          { apply (@no_newline_In l n Hl). rewrite E1. apply in_or_app.
            right. left. reflexivity. }
          congruence.
      - destruct z as [|c z]; simpl in E2.
        + injection E2 as -> ->. rewrite app_nil_r in E1. auto.
        + injection E2 as <- E2. right. exists z. auto. }
    destruct Hcase as [(-> & -> & ->)|(z & -> & E')].
    + exists [l], ls. repeat split; [|discriminate].
      rewrite terminated_cons. reflexivity.
    + destruct (IH Hls z n rest E' Hn) as (l1 & l2 & -> & E1 & -> & _).
      exists (l :: l1), l2. repeat split; [|discriminate].
      rewrite terminated_cons, <- E1, <- app_assoc. reflexivity.
Qed.

Lemma terminated_newlines lines : forallb no_newline lines = true ->
  List.length (filter newline (terminated lines)) = List.length lines.
Proof.
  induction lines as [|l ls IH]; intros H; [reflexivity|].
  simpl in H. apply andb_true_iff in H. destruct H as [Hl Hls].
  rewrite terminated_cons, filter_length_app, (no_newline_filter _ Hl).
  cbn [filter]. change (newline LF) with true. cbn [List.length].
  rewrite IH by exact Hls. reflexivity.
Qed.

(** A word of the head of the table pattern ends with a line break and
    holds two of them. *)
Lemma lang_table_head w :
  lang table_head w ->
  exists u n, w = u ++ [n] /\ newline n = true /\
              2 <= List.length (filter newline w).
Proof.
  unfold table_head. intros H.
  apply lang_cat_inv in H. destruct H as (w1 & u1 & -> & H1 & H).
  apply lang_cat_inv in H. destruct H as (w2 & u2 & -> & H2 & H).
  apply lang_cat_inv in H. destruct H as (w3 & u3 & -> & H3 & H).
  apply lang_cat_inv in H. destruct H as (w4 & u4 & -> & H4 & H).
  apply lang_cat_inv in H. destruct H as (w5 & w6 & -> & H5 & H6).
  apply lang_cls_inv in H4, H6.
  destruct H4 as (n1 & -> & Hn1). destruct H6 as (n2 & -> & Hn2).
  exists (w1 ++ w2 ++ w3 ++ [n1] ++ w5), n2. split; [|split; [exact Hn2|]].
  - rewrite <- !app_assoc. reflexivity.
  - rewrite !filter_length_app. cbn [filter]. rewrite Hn1, Hn2.
    cbn [List.length]. lia.
Qed.

Section WellFormed.

Variables (hx sep : list ascii) (rxs : list (list ascii)).
Hypothesis Hhx : no_newline hx = true.
Hypothesis Hsep : forallb sepchar sep = true.
Hypothesis Hsep_nl : no_newline sep = true.
Hypothesis Hsep_ne : sep <> [].
Hypothesis Hrxs : forallb no_newline rxs = true.
Hypothesis Hrows : rxs <> [].

Local Abbreviation T := (terminated (wrap hx :: sep :: map wrap rxs)).

Lemma wrap_all_no_newline xs :
  forallb no_newline xs = true -> forallb no_newline (map wrap xs) = true.
Proof.
  induction xs as [|x xs IH]; cbn [map forallb]; intros H; [reflexivity|].
  apply andb_true_iff in H. destruct H as [Hx Hxs].
  rewrite wrap_no_newline, IH by assumption. reflexivity.
Qed.

Lemma well_formed_lines :
  forallb no_newline (wrap hx :: sep :: map wrap rxs) = true.
Proof.
  cbn [forallb]. rewrite wrap_no_newline, Hsep_nl, wrap_all_no_newline by assumption.
  reflexivity.
Qed.

Lemma well_formed_is_block : table_block T.
Proof.
  exists (wrap hx), LF, sep, LF, (map (fun l => l ++ [LF]) (map wrap rxs)).
  repeat split; try reflexivity.
  - rewrite !terminated_cons. reflexivity.
  - apply wrap_pipe_line; exact Hhx.
  - exact Hsep_ne.
  - exact Hsep.
  - destruct rxs; [congruence | discriminate].
  - apply Forall_forall. intros r Hr. apply in_map_iff in Hr.
    destruct Hr as (l & <- & Hl). apply in_map_iff in Hl.
    destruct Hl as (x & <- & Hx). exists (wrap x), LF. repeat split.
    apply wrap_pipe_line. rewrite forallb_forall in Hrxs. auto.
Qed.

(** Where the head of the pattern can end, the rows that are left are all
    taken, if there is one. *)
Lemma well_formed_after_head b q :
  In q (matches true table_head (b, T)) ->
  matches true (Plus table_row) q = [] \/
  first_ends_at (matches true (Plus table_row) q) [].
Proof.
  intros Hq. destruct q as [b1 s1].
  apply matches_sound in Hq. destruct Hq as (w & Ew & Lw). cbn [snd] in Ew.
  apply lang_table_head in Lw. destruct Lw as (u & n & -> & Hn & Hc).
  rewrite <- app_assoc in Ew. change ([n] ++ s1) with (n :: s1) in Ew.
  destruct (terminated_cut _ well_formed_lines _ _ _ Ew Hn)
    as (l1 & l2 & El & Eu & -> & _).
  assert (Hl1 : forallb no_newline l1 = true).
  { pose proof well_formed_lines as H. rewrite El, forallb_app in H.
    apply andb_true_iff in H. tauto. }
  rewrite Eu, terminated_newlines in Hc by exact Hl1.
  destruct l1 as [|a [|a' l1]]; simpl in Hc; try lia.
  injection El as _ _ El. apply map_eq_app in El.
  destruct El as (xs1 & xs2 & Ex & _ & <-).
  assert (Hxs2 : forallb no_newline xs2 = true).
  { rewrite Ex, forallb_app in Hrxs. apply andb_true_iff in Hrxs. tauto. }
  destruct xs2 as [|x xs2].
  - left. reflexivity.
  - right. apply table_rows_plus; exact Hxs2.
Qed.

Lemma well_formed_first_match b :
  first_ends_at (matches true table_pattern (b, T)) [].
Proof.
  rewrite table_pattern_head. apply first_ends_at_flat_map.
  - intros q Hq. eapply well_formed_after_head; exact Hq.
  - rewrite <- table_pattern_head.
    destruct (@matches_complete true table_pattern T) with (b := b) (rest := @nil ascii)
      as [b' Hin].
    + apply lang_table_pattern, well_formed_is_block.
    + reflexivity.
    + rewrite app_nil_r in Hin. intros E. rewrite E in Hin. destruct Hin.
Qed.

Lemma well_formed_finditer : finditer true table_pattern T = [T].
Proof.
  apply (@finditer_whole T "|"
           ((hx ++ ["|"]) ++ LF :: terminated (sep :: map wrap rxs))).
  - rewrite terminated_cons. reflexivity.
  - apply well_formed_first_match.
Qed.

Lemma split_terminated lines :
  Forall (fun l => ~ In LF l) lines ->
  split LF (terminated lines) = lines ++ [[]].
Proof.
  induction 1 as [|l ls Hl _ IH]; [reflexivity|].
  rewrite terminated_cons, split_app_sep by exact Hl. rewrite IH. reflexivity.
Qed.

Lemma strip_wrap x : strip (wrap x) = wrap x.
Proof. apply strip_pipes. Qed.

Lemma keep_wrapped xs :
  map strip (filter (fun l => truthy (strip l)) (map wrap xs ++ [[]])) =
  map wrap xs.
Proof.
  induction xs as [|x xs IH]; [reflexivity|].
  cbn [map app filter]. rewrite strip_wrap. cbn [truthy wrap map].
  fold (wrap x). rewrite strip_wrap, IH. reflexivity.
Qed.

Lemma well_formed_parse :
  parse_table T =
  DataFrame_of (map cells (map wrap (if truthy (strip sep) then rxs else tl rxs)))
               (cells (wrap hx)).
Proof.
  unfold parse_table. rewrite split_terminated.
  - cbn [app filter]. rewrite strip_wrap. cbn [truthy wrap].
    fold (wrap hx). destruct (truthy (strip sep)).
    + cbn [map]. rewrite keep_wrapped, strip_wrap. reflexivity.
    + cbn [map]. rewrite keep_wrapped, strip_wrap.
      destruct rxs; reflexivity.
  - apply Forall_forall. intros l Hl. apply no_newline_LF.
    pose proof well_formed_lines as H. rewrite forallb_forall in H. auto.
Qed.

Lemma well_formed_tables pre ui :
  no_pipe pre = true ->
  extract_tables (pre ++ T) ui =
  match DataFrame_of
          (map cells (map wrap (if truthy (strip sep) then rxs else tl rxs)))
          (cells (wrap hx)) with
  | inr df => (inr [df], ui)
  | inl e => (inr [], ui ++ [e])
  end.
Proof.
  intros Hp. rewrite extract_tables_prefix by exact Hp.
  rewrite extract_tables_spec, well_formed_finditer.
  unfold parsed, reported. cbn [flat_map]. rewrite well_formed_parse.
  destruct (DataFrame_of _ (cells (wrap hx)));
    simpl; rewrite ?app_nil_r; reflexivity.
Qed.

End WellFormed.

(** X9.  A header line [|...|], a separator line made of pipes, hyphens,
    colons and blanks, not all blank, and one or more data lines [|...|],
    each line ended by [\n] and none holding a line break, after any text
    without a pipe: the whole block is matched, as one block.  The result
    is the table of the cells of the header and of the data lines, or no
    table and one message when [DataFrame] rejects them. *)
Theorem well_formed_table_is_read :
  forall pre hx sep rxs ui,
    no_pipe pre = true ->
    no_newline hx = true ->
    forallb sepchar sep = true -> no_newline sep = true -> strip sep <> [] ->
    forallb no_newline rxs = true -> rxs <> [] ->
    extract_tables (pre ++ terminated (wrap hx :: sep :: map wrap rxs)) ui =
    match DataFrame_of (map cells (map wrap rxs)) (cells (wrap hx)) with
    | inr df => (inr [df], ui)
    | inl e => (inr [], ui ++ [e])
    end.
Proof.
  intros pre hx sep rxs ui Hp Hhx Hs Hsn Hse Hr Hne.
  rewrite well_formed_tables; try assumption.
  - apply truthy_true in Hse. rewrite Hse. reflexivity.
  - intros ->. apply Hse. reflexivity.
Qed.

(** X12.  With a separator line that is blank (spaces or tabs only) the
    block is matched all the same, but [parse_table] counts its lines
    without the blank one, and takes the first data line for the
    separator: the table is made of the data lines but the first. *)
Theorem blank_separator_drops_first_row :
  forall pre hx sep rxs ui,
    no_pipe pre = true ->
    no_newline hx = true ->
    forallb sepchar sep = true -> no_newline sep = true ->
    sep <> [] -> strip sep = [] ->
    forallb no_newline rxs = true -> rxs <> [] ->
    extract_tables (pre ++ terminated (wrap hx :: sep :: map wrap rxs)) ui =
    match DataFrame_of (map cells (map wrap (tl rxs))) (cells (wrap hx)) with
    | inr df => (inr [df], ui)
    | inl e => (inr [], ui ++ [e])
    end.
Proof.
  intros pre hx sep rxs ui Hp Hhx Hs Hsn Hne Hblank Hr Hrows.
  rewrite well_formed_tables by assumption. rewrite Hblank. reflexivity.
Qed.

Lemma blank_separator_drops_first_row_witness :
  extract_tables (py "|a|b|\n  \n|1|2|\n|3|4|\n") [] =
  (inr [mkFrame [py "a"; py "b"] [[Some (py "3"); Some (py "4")]]], []).
Proof.
  apply (@blank_separator_drops_first_row [] (py "a|b") (py "  ")
           [py "1|2"; py "3|4"] []);
    try (vm_compute; reflexivity); discriminate.
Defined.

Lemma well_formed_table_is_read_witness :
  extract_tables
    (py "Costs:\n" ++
     terminated (wrap (py " Item | Price ") :: py "|:---|---:|"
                 :: map wrap [py "Shoes| 90"; py "-|-"; py "Socks|5"])) [] =
  (inr [mkFrame [py "Item"; py "Price"]
          [[Some (py "Shoes"); Some (py "90")];
           [Some (py "-"); Some (py "-")];
           [Some (py "Socks"); Some (py "5")]]], []).
Proof.
  apply (@well_formed_table_is_read (py "Costs:\n") (py " Item | Price ")
           (py "|:---|---:|") [py "Shoes| 90"; py "-|-"; py "Socks|5"] []);
    try (vm_compute; reflexivity); discriminate.
Defined.

Lemma split_join_sep sep (ls : list (list ascii)) :
  ls <> [] -> Forall (fun l => ~ In sep l) ls ->
  split sep (join [sep] ls) = ls.
Proof.
  induction ls as [|l ls IH]; [congruence|]. intros _ H.
  inversion H as [|? ? Hl Hls]; subst.
  destruct ls as [|l' ls].
  - simpl. apply split_nosep; exact Hl.
  - change (join [sep] (l :: l' :: ls)) with (l ++ sep :: join [sep] (l' :: ls)).
    rewrite split_app_sep by exact Hl.
    rewrite IH; [reflexivity | congruence | exact Hls].
Qed.

Lemma cells_markdown_row cs :
  cs <> [] -> forallb no_pipe cs = true ->
  cells (markdown_row cs) = map strip cs.
Proof.
  intros Hne Hcs. unfold cells, markdown_row, wrap, slice_1_m1.
  cbn [split]. rewrite Ascii.eqb_refl. cbn [tl].
  change [ "|" ] with ("|" :: []). rewrite split_app_at_sep.
  rewrite split_join_sep; [|exact Hne|].
  - cbn [split]. rewrite removelast_last. reflexivity.
  - apply Forall_forall. intros c Hc. apply no_pipe_In.
    rewrite forallb_forall in Hcs. auto.
Qed.

(** X10.  The cells read from the line [|c1|...|cn|], for one cell or more
    and cells without a pipe, are the cells [c1], ..., [cn], each trimmed. *)
Theorem row_cells_round_trip :
  forall cs,
    cs <> [] -> forallb no_pipe cs = true ->
    cells (markdown_row cs) = map strip cs.
Proof. exact cells_markdown_row. Qed.

Lemma row_cells_round_trip_witness :
  cells (py "| Week |Km||") = [py "Week"; py "Km"; []].
Proof.
  apply (@row_cells_round_trip [py " Week "; py "Km"; []]);
    [discriminate | vm_compute; reflexivity].
Defined.

Lemma join_no_newline cs :
  forallb no_newline cs = true -> no_newline (join ["|"] cs) = true.
Proof.
  induction cs as [|c cs IH]; [reflexivity|]. intros H.
  cbn [forallb] in H. apply andb_true_iff in H. destruct H as [Hc Hcs].
  destruct cs as [|c' cs]; [exact Hc|].
  change (join ["|"] (c :: c' :: cs)) with (c ++ ["|"] ++ join ["|"] (c' :: cs)).
  rewrite !no_newline_app, Hc, IH by exact Hcs. reflexivity.
Qed.

Lemma hyphens_sepchar {A} (hs : list A) :
  forallb sepchar (join ["|"] (map (fun _ => ["-"]) hs)) = true /\
  no_newline (join ["|"] (map (fun _ => ["-"]) hs)) = true.
Proof.
  induction hs as [|h hs [IH1 IH2]]; [split; reflexivity|].
  destruct hs as [|h' hs]; [split; reflexivity|].
  change (join ["|"] (map (fun _ => ["-"]) (h :: h' :: hs)))
    with (["-"] ++ ["|"] ++ join ["|"] (map (fun _ : A => ["-"]) (h' :: hs))).
  rewrite !forallb_app, !no_newline_app, IH1, IH2. split; reflexivity.
Qed.

Lemma plain_facts c :
  plain c = true -> no_pipe c = true /\ no_newline c = true /\ strip c = c.
Proof.
  unfold plain, cell. rewrite !andb_true_iff, str_eqb_eq. tauto.
Qed.

Lemma plain_cells cs :
  forallb plain cs = true ->
  forallb no_pipe cs = true /\ forallb no_newline cs = true /\ map strip cs = cs.
Proof.
  induction cs as [|c cs IH]; [repeat split|]. cbn [forallb map]. intros H.
  apply andb_true_iff in H. destruct H as [Hc Hcs].
  destruct (plain_facts _ Hc) as (H1 & H2 & H3).
  destruct (IH Hcs) as (I1 & I2 & I3).
  rewrite H1, H2, H3, I1, I2, I3. repeat split.
Qed.

Lemma width_uniform n data :
  data <> [] -> forallb (fun row => List.length row =? n) data = true ->
  width data = n.
Proof.
  induction data as [|r data IH]; [congruence|]. intros _ H.
  cbn [forallb] in H. apply andb_true_iff in H. destruct H as [Hr Hd].
  apply Nat.eqb_eq in Hr. destruct data as [|r' data].
  - simpl. lia.
  - change (width (r :: r' :: data))
      with (Nat.max (List.length r) (width (r' :: data))).
    rewrite IH; [lia | discriminate | exact Hd].
Qed.

Lemma pad_uniform n data :
  forallb (fun row => List.length row =? n) data = true ->
  map (pad n) data = map (map Some) data.
Proof.
  induction data as [|r data IH]; [reflexivity|]. intros H.
  cbn [forallb] in H. apply andb_true_iff in H. destruct H as [Hr Hd].
  apply Nat.eqb_eq in Hr. cbn [map]. rewrite IH by exact Hd.
  unfold pad. rewrite Hr, Nat.sub_diag. simpl. rewrite app_nil_r. reflexivity.
Qed.

(** X11.  Round trip.  A table with one column or more and one row or more,
    every row as wide as the header, whose cells hold no pipe, no line
    break and no blank at either end, written out as markdown and read by
    [extract_tables], comes back as it was, alone and without a message. *)
Theorem markdown_round_trip :
  forall headers data ui,
    headers <> [] -> data <> [] ->
    forallb plain headers = true ->
    forallb (forallb plain) data = true ->
    forallb (fun row => List.length row =? List.length headers) data = true ->
    extract_tables (markdown_table headers data) ui =
    (inr [mkFrame headers (map (map Some) data)], ui).
Proof.
  intros headers data ui Hh Hd Hph Hpd Hw.
  destruct (plain_cells _ Hph) as (Hh1 & Hh2 & Hh3).
  destruct (hyphens_sepchar headers) as [Hs1 Hs2].
  assert (Hrows : forall row, In row data ->
            row <> [] /\ forallb no_pipe row = true /\
            forallb no_newline row = true /\ map strip row = row).
  { intros row Hrow. rewrite forallb_forall in Hpd, Hw.
    destruct (plain_cells _ (Hpd row Hrow)) as (H1 & H2 & H3).
    specialize (Hw row Hrow). apply Nat.eqb_eq in Hw.
    repeat split; auto. intros ->. destruct headers; [congruence | discriminate]. }
  unfold markdown_table.
  replace (map markdown_row data) with (map wrap (map (join ["|"]) data))
    by (rewrite map_map; reflexivity).
  change (terminated (markdown_row headers
                      :: markdown_row (map (fun _ => ["-"]) headers)
                      :: map wrap (map (join ["|"]) data)))
    with ([] ++ terminated (wrap (join ["|"] headers)
                            :: wrap (join ["|"] (map (fun _ => ["-"]) headers))
                            :: map wrap (map (join ["|"]) data))).
  rewrite well_formed_tables.
  - rewrite strip_wrap. cbn [truthy wrap]. fold (wrap (join ["|"] headers)).
    fold (markdown_row headers). rewrite cells_markdown_row, Hh3 by assumption.
    replace (map cells (map wrap (map (join ["|"]) data))) with data.
    + unfold DataFrame_of. destruct data as [|r data]; [congruence|].
      rewrite (@width_uniform (List.length headers)) by (assumption || discriminate).
      rewrite Nat.eqb_refl, pad_uniform by exact Hw. reflexivity.
    + rewrite !map_map. symmetry. rewrite <- (map_id data) at 2.
      apply map_ext_in. intros row Hrow.
      destruct (Hrows row Hrow) as (R0 & R1 & _ & R3).
      fold (markdown_row row). rewrite cells_markdown_row by assumption. exact R3.
  - apply join_no_newline; exact Hh2.
  - unfold wrap. change ("|" :: join ["|"] (map (fun _ => ["-"]) headers) ++ ["|"])
      with (["|"] ++ join ["|"] (map (fun _ : list ascii => ["-"]) headers) ++ ["|"]).
    rewrite !forallb_app, Hs1. reflexivity.
  - apply wrap_no_newline; exact Hs2.
  - discriminate.
  - apply forallb_forall. intros x Hx. apply in_map_iff in Hx.
    destruct Hx as (row & <- & Hrow). apply join_no_newline.
    apply (Hrows row Hrow).
  - destruct data; [congruence | discriminate].
  - reflexivity.
Qed.

Lemma markdown_round_trip_witness :
  extract_tables
    (markdown_table [py "Week"; py "Km"] [[py "1"; py "2.5"]; [py "2"; []]]) [] =
  (inr [mkFrame [py "Week"; py "Km"]
          [[Some (py "1"); Some (py "2.5")]; [Some (py "2"); Some []]]], []).
Proof.
  apply (@markdown_round_trip [py "Week"; py "Km"] [[py "1"; py "2.5"]; [py "2"; []]] []);
    try (vm_compute; reflexivity); discriminate.
Defined.

(** ** The prompt *)

Lemma join_request a b c h req l rest :
  join [LF] (a :: b :: c :: (h ++ req) :: l :: rest) =
  ((a ++ LF :: b ++ LF :: c ++ LF :: h) ++ req) ++ LF :: join [LF] (l :: rest).
Proof.
  change (join [LF] (a :: b :: c :: (h ++ req) :: l :: rest))
    with (a ++ [LF] ++ b ++ [LF] ++ c ++ [LF] ++ (h ++ req) ++ [LF]
          ++ join [LF] (l :: rest)).
  cbn [app]. repeat (rewrite <- !app_assoc; cbn [app]). reflexivity.
Qed.

(** X13.  The prompt built for a request without a pipe holds no table:
    the three tables of the template are a header and a separator with no
    data row, which the pattern does not match.  A reply that repeats the
    prompt shows no table. *)
Theorem prompt_holds_no_table :
  forall user_request ui,
    no_pipe user_request = true ->
    extract_tables (create_elaborate_prompt user_request) ui = (inr [], ui).
Proof.
  intros req ui Hreq. unfold create_elaborate_prompt.
  rewrite join_request, extract_tables_prefix.
  - rewrite extract_tables_spec.
    match goal with
    | |- context [finditer true table_pattern ?t] =>
        assert (E : finditer true table_pattern t = [])
          by (vm_compute; reflexivity);
        rewrite E
    end.
    simpl. rewrite app_nil_r. reflexivity.
  - unfold no_pipe in *. rewrite forallb_app, Hreq, andb_true_r.
    vm_compute. reflexivity.
Qed.

Lemma prompt_holds_no_table_witness :
  extract_tables
    (create_elaborate_prompt (py "I would like to learn running.")) [] =
  (inr [], []).
Proof.
  apply (@prompt_holds_no_table (py "I would like to learn running.") []).
  vm_compute. reflexivity.
Defined.

Lemma strip_head c s :
  is_space c = false -> exists s', strip (c :: s) = c :: s'.
Proof.
  intros Hc. unfold strip, strip_by, lstrip_by, rstrip_by.
  cbn [dropwhile]. rewrite Hc.
  destruct (dropwhile_split is_space (rev (c :: s))) as (z & E & Hz).
  apply (f_equal (@rev ascii)) in E. rewrite rev_involutive, rev_app_distr in E.
  destruct (rev (dropwhile is_space (rev (c :: s)))) as [|c' t].
  - exfalso. simpl in E. rewrite <- forallb_rev, <- E in Hz. simpl in Hz.
    rewrite Hc in Hz. discriminate.
  - injection E as <- _. eauto.
Qed.

(** A line that starts with the letter H is no heading. *)
Lemma is_heading_H s : is_heading ("H" :: s) = false.
Proof.
  unfold is_heading. destruct (@strip_head "H" s eq_refl) as (s' & ->).
  reflexivity.
Qed.

Lemma sections_of_lines_preamble pre rest :
  Forall (fun l => is_heading l = false) pre ->
  sections_of_lines (pre ++ rest) = sections_of_lines rest.
Proof.
  intros H. unfold sections_of_lines. fold (run init (pre ++ rest)).
  fold (run init rest). rewrite run_app, (@run_body_idle init pre); auto.
Qed.

Lemma single_no_LF l : negb (mem LF l) = true -> ~ In LF l.
Proof.
  intros H. assert (F : Forall (fun l => ~ In LF l) [l]).
  { apply no_LF_check. simpl. rewrite H. reflexivity. }
  inversion F; assumption.
Qed.

Lemma preamble7_sections a b c d e f g rest :
  Forall (fun l => ~ In LF l) (a :: b :: c :: d :: e :: f :: g :: rest) ->
  Forall (fun l => is_heading l = false) [a; b; c; d; e; f; g] ->
  extract_sections (join [LF] (a :: b :: c :: d :: e :: f :: g :: rest)) =
  sections_of_lines rest.
Proof.
  intros HLF Hpre. rewrite extract_sections_join by exact HLF.
  apply (@sections_of_lines_preamble [a; b; c; d; e; f; g] rest). exact Hpre.
Qed.

(** X14.  For a request of one line, the sections read from the prompt are
    the seven numbered sections of the template, whatever the request: the
    line that holds the request is in front of the first heading. *)
Theorem prompt_sections_are_the_template :
  forall user_request,
    ~ In LF user_request ->
    extract_sections (create_elaborate_prompt user_request) =
    extract_sections (create_elaborate_prompt []) /\
    keys (extract_sections (create_elaborate_prompt user_request)) =
    [py "1. Initial Assessment"; py "2. Getting Started Plan";
     py "3. Progression Timeline"; py "4. Data Analysis";
     py "5. Visualization Suggestions"; py "6. Community and Support";
     py "7. Risk Analysis"].
Proof.
  intros req Hreq.
  assert (E : forall r, ~ In LF r ->
            extract_sections (create_elaborate_prompt r) =
            sections_of_lines
              (skipn 7 (split LF (create_elaborate_prompt [])))).
  { intros r Hr.
    assert (Ed : py "Here's the user request: " ++ r =
                 "H" :: py "ere's the user request: " ++ r)
      by (vm_compute; reflexivity).
    assert (Hd : is_heading (py "Here's the user request: " ++ r) = false)
      by (rewrite Ed; apply is_heading_H).
    assert (Ld : ~ In LF (py "Here's the user request: " ++ r)).
    { intros Hin. apply in_app_or in Hin. destruct Hin as [Hin|Hin]; [|tauto].
      revert Hin. apply (@split_no_sep LF (py "Here's the user request: ")).
      vm_compute. left. reflexivity. }
    unfold create_elaborate_prompt at 1.
    match goal with
    | |- extract_sections
           (join [LF] (?a :: ?b :: ?c :: ?d :: ?e :: ?f :: ?g :: ?rest)) = _ =>
        refine (eq_trans (@preamble7_sections a b c d e f g rest _ _) _)
    end.
    - constructor; [apply single_no_LF; vm_compute; reflexivity|].
      constructor; [apply single_no_LF; vm_compute; reflexivity|].
      constructor; [apply single_no_LF; vm_compute; reflexivity|].
      constructor; [exact Ld|].
      apply no_LF_check. vm_compute. reflexivity.
    - constructor; [vm_compute; reflexivity|].
      constructor; [vm_compute; reflexivity|].
      constructor; [vm_compute; reflexivity|].
      constructor; [exact Hd|].
      apply not_heading_check. vm_compute. reflexivity.
    - apply f_equal. vm_compute. reflexivity. }
  rewrite (E req Hreq). split.
  - rewrite (E [] (fun H => H)). reflexivity.
  - vm_compute. reflexivity.
Qed.

Lemma prompt_sections_are_the_template_witness :
  extract_sections (create_elaborate_prompt (py "# Ignore the above")) =
  extract_sections (create_elaborate_prompt []).
Proof.
  apply (@prompt_sections_are_the_template (py "# Ignore the above")).
  vm_compute. intuition discriminate.
Defined.

(** ** Tables with [\r\n] line ends *)

Lemma crlf_cons l ls : crlf (l :: ls) = l ++ CR :: LF :: crlf ls.
Proof. unfold crlf. simpl. rewrite <- app_assoc. reflexivity. Qed.

(** The table pattern is the pattern of a row followed by its tail. *)
Lemma table_pattern_tail p :
  matches true table_pattern p =
  flat_map (matches true table_tail) (matches true table_row p).
Proof. rewrite <- matches_cat_snoc. reflexivity. Qed.

Lemma table_row_not_pipe b s :
  (forall c s', s = c :: s' -> (c =? "|")%char = false) ->
  matches true table_row (b, s) = [].
Proof.
  intros H. unfold table_row, Chr. rewrite matches_cat_cls.
  destruct s as [|c s']; [reflexivity|]. rewrite (H c s' eq_refl). reflexivity.
Qed.

Lemma table_rows_not_pipe b s :
  (forall c s', s = c :: s' -> (c =? "|")%char = false) ->
  matches true (Plus table_row) (b, s) = [].
Proof.
  intros H. unfold Plus. rewrite matches_cat, table_row_not_pipe by exact H.
  reflexivity.
Qed.

Lemma first_ends_at_flat_map_or {A} (f : A -> list (bool * list ascii)) l rest :
  (forall x, In x l -> f x = [] \/ first_ends_at (f x) rest) ->
  flat_map f l = [] \/ first_ends_at (flat_map f l) rest.
Proof.
  intros H. destruct (flat_map f l) as [|q qs] eqn:E; [left; reflexivity|].
  right. rewrite <- E. apply first_ends_at_flat_map; [exact H|].
  rewrite E. discriminate.
Qed.

(** A row that ends with [\r\n] is matched up to the carriage return: the
    line feed is left. *)
Lemma table_row_matches_crlf x rest b :
  no_newline x = true ->
  matches true table_row (b, wrap x ++ CR :: LF :: rest) <> [] /\
  forall q, In q (matches true table_row (b, wrap x ++ CR :: LF :: rest)) ->
            snd q = LF :: rest.
Proof.
  intros Hx. split.
  - destruct (@matches_complete true table_row (wrap x ++ [CR]))
      with (b := b) (rest := LF :: rest) as [b' Hin].
    + apply lang_table_row. exists (wrap x), CR.
      repeat split. apply wrap_pipe_line; exact Hx.
    + reflexivity.
    + rewrite <- app_assoc in Hin. intros E.
      change ([CR] ++ LF :: rest) with (CR :: LF :: rest) in Hin.
      rewrite E in Hin. destruct Hin.
  - intros q Hq. apply matches_sound in Hq. destruct Hq as (w & Ew & Lw).
    cbn [snd] in Ew. apply lang_table_row in Lw.
    destruct Lw as (l & n & -> & Hl & Hn).
    rewrite <- (app_assoc l [n] (snd q)) in Ew.
    change ([n] ++ snd q) with (n :: snd q) in Ew.
    apply app_eq_app in Ew. destruct Ew as (z & [[E1 E2]|[E1 E2]]).
    + destruct z as [|c z]; simpl in E2; [congruence|].
      injection E2 as <- E2. exfalso.
      assert (Hn' : newline n = false).
      { apply (@no_newline_In (wrap x) n (wrap_no_newline _ Hx)).
        rewrite E1. apply in_or_app. right. left. reflexivity. }
      congruence.
    + destruct z as [|c z]; simpl in E2; [congruence|].
      injection E2 as <- E2. exfalso.
      destruct z as [|c z]; simpl in E2.
      * destruct Hl as (y & Ey & _). rewrite E1 in Ey.
        change ("|" :: y ++ ["|"]) with (("|" :: y) ++ ["|"]) in Ey.
        apply app_inj_tail in Ey. destruct Ey as [_ Ey]. discriminate Ey.
      * injection E2 as <- E2. apply (pipe_line_no_LF Hl).
        rewrite E1. apply in_or_app. right. right. left. reflexivity.
Qed.

(** After such a row the repetition of rows stops: the next character is
    the line feed, not a pipe. *)
Lemma table_rows_plus_crlf x rest b :
  no_newline x = true ->
  first_ends_at (matches true (Plus table_row) (b, wrap x ++ CR :: LF :: rest))
                (LF :: rest).
Proof.
  intros Hx. destruct (@table_row_matches_crlf x rest b Hx) as [Hne Hall].
  assert (Hstop : forall q,
             In q (matches true table_row (b, wrap x ++ CR :: LF :: rest)) ->
             matches true (Star true table_row) q = [q]).
  { intros q Hq. specialize (Hall q Hq). destruct q as [bq sq].
    cbn [snd] in Hall. subst sq. rewrite matches_star. cbv zeta.
    rewrite table_row_not_pipe; [reflexivity|].
    intros c s' [= <- <-]. reflexivity. }
  unfold Plus. rewrite matches_cat. apply first_ends_at_flat_map.
  - intros q Hq. right. rewrite (Hstop q Hq). exists q, []. auto.
  - destruct (matches true table_row (b, wrap x ++ CR :: LF :: rest))
      as [|q qs] eqn:E; [congruence|].
    cbn [flat_map]. rewrite (Hstop q (or_introl eq_refl)). discriminate.
Qed.

(** In a text made of lines without line-break characters, each ended by
    [\r\n], a line-break character is the carriage return or the line feed
    at the end of a line. *)
Lemma crlf_cut lines : forallb no_newline lines = true ->
  forall u n v,
    crlf lines = u ++ n :: v -> newline n = true ->
    exists l1 l l2,
      lines = l1 ++ l :: l2 /\
      ((u = crlf l1 ++ l /\ n = CR /\ v = LF :: crlf l2) \/
       (u = crlf l1 ++ l ++ [CR] /\ n = LF /\ v = crlf l2)).
Proof.
  induction lines as [|l ls IH]; intros H u n v E Hn.
  - destruct u; discriminate E.
  - simpl in H. apply andb_true_iff in H. destruct H as [Hl Hls].
    rewrite crlf_cons in E.
    apply app_eq_app in E. destruct E as (z & [[E1 E2]|[E1 E2]]).
    + destruct z as [|c z]; simpl in E2.
      * injection E2 as -> ->. rewrite app_nil_r in E1. subst u.
        exists [], l, ls. split; [reflexivity|]. left. auto.
      * injection E2 as <- E2. exfalso.
        assert (Hn' : newline n = false).
        { apply (@no_newline_In l n Hl). rewrite E1. apply in_or_app.
          right. left. reflexivity. }
        congruence.
    + destruct z as [|c z]; simpl in E2.
      * injection E2 as En Ev. subst n v. rewrite app_nil_r in E1. subst u.
        exists [], l, ls. split; [reflexivity|]. left. auto.
      * injection E2 as <- E2. destruct z as [|c z]; simpl in E2.
        -- injection E2 as En Ev. subst n v u.
           exists [], l, ls. split; [reflexivity|]. right. auto.
        -- injection E2 as <- E2.
           destruct (IH Hls z n v E2 Hn) as (l1 & l' & l2 & -> & Hc).
           exists (l :: l1), l', l2. split; [reflexivity|].
           rewrite crlf_cons, E1.
           destruct Hc as [(-> & -> & ->)|(-> & -> & ->)]; [left|right];
             repeat split; rewrite <- app_assoc; reflexivity.
Qed.

Lemma forallb_crlf (f : ascii -> bool) ls :
  forallb f (crlf ls) = true -> Forall (fun l => forallb f l = true) ls.
Proof.
  induction ls as [|l ls IH]; intros H; [constructor|].
  rewrite crlf_cons, forallb_app in H. apply andb_true_iff in H.
  destruct H as [Hl H]. cbn [forallb] in H.
  apply andb_true_iff in H. destruct H as [_ H].
  apply andb_true_iff in H. destruct H as [_ H].
  constructor; [exact Hl | exact (IH H)].
Qed.

(** A run of separator characters that ends with a line break in front of
    a pipe is made of whole lines. *)
Lemma crlf_sep_cut lines sp n s :
  forallb no_newline lines = true ->
  crlf lines = sp ++ n :: "|" :: s -> newline n = true ->
  forallb sepchar sp = true ->
  exists l1 l l2,
    lines = l1 ++ l :: l2 /\ "|" :: s = crlf l2 /\
    Forall (fun l => forallb sepchar l = true) (l1 ++ [l]).
Proof.
  intros Hnl E Hn Hsp.
  destruct (crlf_cut _ Hnl _ _ _ E Hn)
    as (l1 & l & l2 & El & [(_ & _ & Ev)|(Eu & _ & Ev)]); [discriminate Ev|].
  exists l1, l, l2. split; [exact El|]. split; [exact Ev|].
  rewrite Eu, !forallb_app in Hsp.
  apply andb_true_iff in Hsp. destruct Hsp as [H1 Hsp].
  apply andb_true_iff in Hsp. destruct Hsp as [H2 _].
  apply Forall_app. split; [apply forallb_crlf; exact H1|].
  constructor; [exact H2 | constructor].
Qed.

Lemma finditer_from_skip w : forall r b b',
  finditer_from true table_pattern (List.length w) b (w ++ r) =
  finditer_from true table_pattern 0 b' r.
Proof.
  induction w as [|c w IH]; intros r b b'; [apply finditer_from_flag|].
  cbn [List.length app finditer_from]. apply IH.
Qed.

(** The first match, and the search that goes on after it. *)
Lemma finditer_first_match w r :
  w <> [] ->
  first_ends_at (matches true table_pattern (true, w ++ r)) r ->
  finditer true table_pattern (w ++ r) =
  w :: finditer_from true table_pattern 0 true r.
Proof.
  intros Hw (q & qs & E & Hq). destruct w as [|c w]; [congruence|].
  unfold finditer. cbn [app finditer_from].
  change (c :: w ++ r) with ((c :: w) ++ r) in *.
  rewrite E, Hq, matched_app. f_equal.
  replace (List.length (c :: w) - 1) with (List.length w)
    by (cbn [List.length]; lia).
  apply finditer_from_skip.
Qed.

Lemma finditer_from_no_block text k b :
  (forall pre block post, text = pre ++ block ++ post -> ~ table_block block) ->
  finditer_from true table_pattern k b text = [].
Proof.
  intros H. destruct (finditer_from true table_pattern k b text) as [|blk l] eqn:E;
    [reflexivity|].
  assert (Hin : In blk (finditer_from true table_pattern k b text))
    by (rewrite E; left; auto).
  apply finditer_from_sound in Hin. destruct Hin as (pre & post & Et & L).
  exfalso. apply (H _ _ _ Et). apply lang_table_pattern. exact L.
Qed.

(** Lines none of which is made of separator characters only hold no
    block, when they end with [\r\n]: the header of a block would end with
    the carriage return, and the separator line would have to be one of
    them. *)
Lemma crlf_rows_no_block lines :
  forallb no_newline lines = true ->
  Forall (fun l => forallb sepchar l = false) lines ->
  forall pre block post,
    LF :: crlf lines = pre ++ block ++ post -> ~ table_block block.
Proof.
  intros Hnl Hns pre block post E
    (hdr & n1 & sp & n2 & rows & -> & (y & -> & _) & Hn1 & Hne & Hsp & Hn2
     & Hrows & Hall).
  destruct rows as [|r rows]; [congruence|].
  inversion Hall as [|? ? Hr _]; subst.
  destruct Hr as (l & n & -> & (y' & -> & _) & _).
  assert (E' : exists tail,
             LF :: crlf lines =
             ((pre ++ "|" :: y) ++ ["|"]) ++ n1 :: sp ++ n2 :: "|" :: tail).
  { exists (y' ++ "|" :: n :: List.concat rows ++ post). rewrite E.
    cbn [List.concat]. repeat (rewrite <- app_assoc; cbn [app]).
    reflexivity. }
  clear E. destruct E' as (tail & E).
  destruct (pre ++ "|" :: y) as [|c u] eqn:Eu.
  { apply app_eq_nil in Eu. destruct Eu as [_ Eu]. discriminate Eu. }
  cbn [app] in E. injection E as _ E.
  destruct (crlf_cut _ Hnl _ _ _ E Hn1)
    as (l1 & l0 & l2 & El & [(_ & _ & Ev)|(Eu' & _ & _)]).
  - destruct sp as [|c0 sp]; [congruence|].
    cbn [app] in Ev. injection Ev as _ Ev.
    cbn [forallb] in Hsp. apply andb_true_iff in Hsp. destruct Hsp as [_ Hsp].
    assert (Hnl2 : forallb no_newline l2 = true).
    { rewrite El, forallb_app in Hnl. apply andb_true_iff in Hnl.
      destruct Hnl as [_ Hnl]. cbn [forallb] in Hnl.
      apply andb_true_iff in Hnl. tauto. }
    symmetry in Ev.
    destruct (@crlf_sep_cut _ _ _ _ Hnl2 Ev Hn2 Hsp)
      as (a & l' & b' & El2 & _ & Hall').
    apply Forall_app in Hall'. destruct Hall' as [_ Hl'].
    inversion Hl' as [|? ? Hl'' _]; subst.
    rewrite Forall_forall in Hns.
    rewrite (Hns l') in Hl''; [discriminate|].
    apply in_or_app. right. right. apply in_or_app. right. left. reflexivity.
  - rewrite !app_assoc in Eu'. apply app_inj_tail in Eu'.
    destruct Eu' as [_ Eu']. discriminate Eu'.
Qed.

Lemma sepchar_wrap x : forallb sepchar (wrap x) = forallb sepchar x.
Proof.
  unfold wrap. cbn [forallb]. rewrite forallb_app. cbn [forallb].
  change (sepchar "|") with true. rewrite !andb_true_r. reflexivity.
Qed.

Lemma strip_by_snoc p s c : p c = true -> strip_by p (s ++ [c]) = strip_by p s.
Proof.
  intros Hc. destruct (forallb p s) eqn:Hs.
  - transitivity (@nil ascii); [|symmetry]; apply strip_by_nil_iff;
      [|exact Hs]. rewrite forallb_app, Hs. cbn [forallb]. rewrite Hc. reflexivity.
  - unfold strip_by, lstrip_by, rstrip_by.
    assert (E : dropwhile p (s ++ [c]) = dropwhile p s ++ [c]).
    { clear Hc. induction s as [|d s IH]; [discriminate Hs|].
      cbn [forallb] in Hs. cbn [app dropwhile].
      destruct (p d); [apply IH; exact Hs | reflexivity]. }
    rewrite E, rev_app_distr. cbn [rev app dropwhile]. rewrite Hc. reflexivity.
Qed.

Section CrLf.

Variables (hx sep x1 : list ascii) (xs : list (list ascii)).
Hypothesis Hhx : no_newline hx = true.
Hypothesis Hsep : forallb sepchar sep = true.
Hypothesis Hsep_nl : no_newline sep = true.
Hypothesis Hrows_nl : forallb no_newline (x1 :: xs) = true.
Hypothesis Hrows_ns :
  forallb (fun x => negb (forallb sepchar x)) (x1 :: xs) = true.

(** The header, the separator and the first data row, without the line
    feed of that row. *)
Local Abbreviation first_block :=
  (wrap hx ++ CR :: LF :: sep ++ CR :: LF :: wrap x1 ++ [CR]).

Lemma crlf_split :
  crlf (wrap hx :: sep :: map wrap (x1 :: xs)) =
  first_block ++ LF :: crlf (map wrap xs).
Proof.
  cbn [map]. rewrite !crlf_cons.
  repeat (rewrite <- app_assoc; cbn [app]). reflexivity.
Qed.

Lemma crlf_lines_no_newline :
  forallb no_newline (sep :: map wrap (x1 :: xs)) = true.
Proof.
  cbn [forallb]. rewrite Hsep_nl. apply wrap_all_no_newline. exact Hrows_nl.
Qed.

Lemma crlf_rows_not_sep :
  Forall (fun l => forallb sepchar l = false) (map wrap (x1 :: xs)).
Proof.
  apply Forall_forall. intros l Hl. apply in_map_iff in Hl.
  destruct Hl as (x & <- & Hx). rewrite sepchar_wrap.
  rewrite forallb_forall in Hrows_ns. apply negb_true_iff. auto.
Qed.

Lemma crlf_first_is_block : table_block first_block.
Proof.
  exists (wrap hx), CR, (LF :: sep ++ [CR]), LF, [wrap x1 ++ [CR]].
  split; [|repeat split; try reflexivity; try discriminate].
  - cbn [List.concat app]. rewrite app_nil_r.
    repeat (rewrite <- app_assoc; cbn [app]). reflexivity.
  - apply wrap_pipe_line; exact Hhx.
  - cbn [forallb]. rewrite forallb_app, Hsep. reflexivity.
  - constructor; [|constructor]. exists (wrap x1), CR. repeat split.
    apply wrap_pipe_line. simpl in Hrows_nl.
    apply andb_true_iff in Hrows_nl. tauto.
Qed.

(** After the header, the separator takes its own line and no more, and
    the rows stop after the first. *)
Lemma crlf_after_row b :
  matches true table_tail (b, LF :: crlf (sep :: map wrap (x1 :: xs))) = [] \/
  first_ends_at
    (matches true table_tail (b, LF :: crlf (sep :: map wrap (x1 :: xs))))
    (LF :: crlf (map wrap xs)).
Proof.
  unfold table_tail. rewrite matches_cat. apply first_ends_at_flat_map_or.
  intros [b2 s2] Hq. apply matches_sound in Hq.
  destruct Hq as (sp & E & L). cbn [snd] in E.
  apply lang_plus_cls in L. destruct L as [Hne Hsp].
  rewrite matches_cat_cls.
  destruct s2 as [|n s3]; [left; reflexivity|].
  destruct (newline n) eqn:Hn; [|left; reflexivity].
  destruct s3 as [|c s4].
  { left. apply table_rows_not_pipe. intros ? ? [=]. }
  destruct (Ascii.eqb_spec c "|") as [->|Hc].
  2:{ left. apply table_rows_not_pipe. intros ? ? [= <- <-].
      apply Ascii.eqb_neq. exact Hc. }
  destruct sp as [|c0 sp]; [congruence|].
  cbn [app] in E. injection E as _ E.
  cbn [forallb] in Hsp. apply andb_true_iff in Hsp. destruct Hsp as [_ Hsp].
  destruct (@crlf_sep_cut _ _ _ _ crlf_lines_no_newline E Hn Hsp)
    as (l1 & l & l2 & El & Ev & Hall).
  destruct l1 as [|a l1].
  - cbn [app] in El. injection El as _ El. subst l2. rewrite Ev.
    right. unfold after. cbn [map]. rewrite crlf_cons.
    apply table_rows_plus_crlf. simpl in Hrows_nl.
    apply andb_true_iff in Hrows_nl. tauto.
  - exfalso. cbn [app] in El. injection El as _ El.
    apply Forall_app in Hall. destruct Hall as [_ Hl].
    inversion Hl as [|? ? Hl' _]; subst.
    pose proof crlf_rows_not_sep as Hns. rewrite Forall_forall in Hns.
    rewrite (Hns l) in Hl'; [discriminate|].
    cbn [map]. rewrite El. apply in_or_app. right. left. reflexivity.
Qed.

Lemma crlf_first_match b :
  first_ends_at
    (matches true table_pattern
       (b, crlf (wrap hx :: sep :: map wrap (x1 :: xs))))
    (LF :: crlf (map wrap xs)).
Proof.
  rewrite table_pattern_tail. apply first_ends_at_flat_map.
  - intros q Hq. rewrite crlf_cons in Hq.
    destruct (@table_row_matches_crlf hx (crlf (sep :: map wrap (x1 :: xs))) b Hhx)
      as [_ Hall].
    specialize (Hall q Hq). destruct q as [bq sq]. cbn [snd] in Hall. subst sq.
    apply crlf_after_row.
  - rewrite <- table_pattern_tail, crlf_split.
    destruct (@matches_complete true table_pattern first_block)
      with (b := b) (rest := LF :: crlf (map wrap xs)) as [b' Hin].
    + apply lang_table_pattern, crlf_first_is_block.
    + reflexivity.
    + intros E. rewrite E in Hin. destruct Hin.
Qed.

Lemma crlf_finditer :
  finditer true table_pattern (crlf (wrap hx :: sep :: map wrap (x1 :: xs))) =
  [first_block].
Proof.
  rewrite crlf_split. rewrite finditer_first_match.
  - f_equal. apply finditer_from_no_block.
    apply crlf_rows_no_block.
    + apply wrap_all_no_newline. simpl in Hrows_nl.
      apply andb_true_iff in Hrows_nl. tauto.
    + pose proof crlf_rows_not_sep as H. inversion H; assumption.
  - discriminate.
  - rewrite <- crlf_split. apply crlf_first_match.
Qed.

Lemma crlf_parse :
  strip sep <> [] ->
  parse_table first_block =
  DataFrame_of [cells (wrap x1)] (cells (wrap hx)).
Proof.
  intros Hblank. unfold parse_table.
  assert (Hx1 : no_newline x1 = true).
  { simpl in Hrows_nl. apply andb_true_iff in Hrows_nl. tauto. }
  assert (Es : split LF first_block =
               [wrap hx ++ [CR]; sep ++ [CR]; wrap x1 ++ [CR]]).
  { replace first_block
      with ((wrap hx ++ [CR]) ++ LF :: (sep ++ [CR]) ++ LF :: wrap x1 ++ [CR])
      by (repeat (rewrite <- app_assoc; cbn [app]); reflexivity).
    assert (HCR : forall l, no_newline l = true -> ~ In LF (l ++ [CR])).
    { intros l Hl Hin. apply in_app_or in Hin.
      destruct Hin as [Hin|[Hin|[]]]; [|discriminate Hin].
      exact (no_newline_LF _ Hl Hin). }
    rewrite split_app_sep by (apply HCR, wrap_no_newline, Hhx).
    rewrite split_app_sep by (apply HCR, Hsep_nl).
    rewrite split_nosep by (apply HCR, wrap_no_newline, Hx1).
    reflexivity. }
  rewrite Es. unfold strip. cbn [filter].
  rewrite !strip_by_snoc by reflexivity.
  fold (strip (wrap hx)) (strip sep) (strip (wrap x1)).
  rewrite !strip_wrap. apply truthy_true in Hblank. rewrite Hblank.
  cbn [truthy wrap]. fold (wrap hx) (wrap x1). cbn [map].
  unfold strip. rewrite !strip_by_snoc by reflexivity.
  fold (strip (wrap hx)) (strip sep) (strip (wrap x1)).
  rewrite !strip_wrap. reflexivity.
Qed.

Lemma crlf_tables pre ui :
  no_pipe pre = true -> strip sep <> [] ->
  extract_tables (pre ++ crlf (wrap hx :: sep :: map wrap (x1 :: xs))) ui =
  match DataFrame_of [cells (wrap x1)] (cells (wrap hx)) with
  | inr df => (inr [df], ui)
  | inl e => (inr [], ui ++ [e])
  end.
Proof.
  intros Hp Hblank. rewrite extract_tables_prefix by exact Hp.
  rewrite extract_tables_spec, crlf_finditer.
  unfold parsed, reported. cbn [flat_map]. rewrite crlf_parse by exact Hblank.
  destruct (DataFrame_of _ (cells (wrap hx)));
    simpl; rewrite ?app_nil_r; reflexivity.
Qed.

End CrLf.

(** X15.  A well-formed table whose lines end with [\r\n]: a header line
    [|...|], a separator line made of pipes, hyphens, colons and blanks, not
    all blank, and data lines [|...|] none of which is made of separator
    characters only.  The carriage return ends the header and each row, so
    that the line feed after the first data row stops the repetition of
    rows: the block that is matched ends with the first data row, and no
    other block is found in the lines that follow.  The table, when
    [DataFrame] accepts it, has the first data row and no other. *)
Theorem crlf_table_keeps_first_row_only :
  forall pre hx sep x1 xs ui,
    no_pipe pre = true ->
    no_newline hx = true ->
    forallb sepchar sep = true -> no_newline sep = true -> strip sep <> [] ->
    forallb no_newline (x1 :: xs) = true ->
    forallb (fun x => negb (forallb sepchar x)) (x1 :: xs) = true ->
    extract_tables (pre ++ crlf (wrap hx :: sep :: map wrap (x1 :: xs))) ui =
    match DataFrame_of [cells (wrap x1)] (cells (wrap hx)) with
    | inr df => (inr [df], ui)
    | inl e => (inr [], ui ++ [e])
    end.
Proof.
  intros pre hx sep x1 xs ui Hp Hhx Hs Hsn Hse Hr Hns.
  apply crlf_tables; assumption.
Qed.

Lemma crlf_table_keeps_first_row_only_witness :
  extract_tables
    (py "Costs:\r\n" ++
     crlf (wrap (py " Item | Price ") :: py "|:---|---:|"
           :: map wrap [py "Shoes| 90"; py "Socks|5"; py "Cap|12"])) [] =
  (inr [mkFrame [py "Item"; py "Price"]
          [[Some (py "Shoes"); Some (py "90")]]], []).
Proof.
  apply (@crlf_table_keeps_first_row_only (py "Costs:\r\n") (py " Item | Price ")
           (py "|:---|---:|") (py "Shoes| 90") [py "Socks|5"; py "Cap|12"] []);
    try (vm_compute; reflexivity); discriminate.
Defined.
